(** * OPL2_Synthesizer.ino: key-to-channel allocation, transposition, settings

    A shallow embedding of the Arduino sketch [OPL2_Synthesizer.ino].  The
    sketch keeps three global variables (the channel table, the base note and
    the settings vector) and talks to two external collaborators: the input
    pins ([digitalRead], [analogRead]) and the OPL2 driver / serial port.

    - The globals become the record [State]; every function of the sketch is
      a computation in the monad [UB], which threads the state and fails
      ([None]) exactly where the C++ code would index an array out of bounds.
    - The calls to the driver and to [Serial.println] are appended to
      [trace], in program order.
    - The pins are an input of each pass: [Inputs] gives, for every pin, the
      level that the n-th read of that pin returns during the pass. *)

From Stdlib Require Import ZArith Lia Bool.
From stdpp Require Import list.

Local Open Scope Z_scope.

(** ** Configuration (the [#define]s of the sketch) *)

Definition NONE : Z := -1.
Definition BASE_NOTE : Z := 36.
Definition LOWEST_NOTE : Z := 0.
Definition HIGHEST_NOTE : Z := 96.
Definition FIRST_KEY_PIN : Z := 2.
Definition MOVE_UP_1_PIN : Z := 6.
Definition MOVE_DOWN_1_PIN : Z := 5.
Definition AMOUNT_OF_KEYS : Z := 3.
Definition AMOUNT_OF_EXTRA_KEYS : Z := 2.
Definition AMOUNT_OF_CHANNELS : Z := 8.
Definition AMOUNT_OF_SETTINGS : Z := 5.

(** ** Data model *)

(** [typedef struct { int id; int pressedKey; bool playing; } Channel;] *)
Record Channel : Type := mkChannel {
  id : Z;
  pressedKey : Z;
  playing : bool
}.

(** The operator selector of the OPL2 driver ([OPL2.h]). *)
Inductive Operator : Type := MODULATOR | CARRIER.

(** What the sketch sends to the outside, one constructor per call. *)
Inductive Event : Type :=
| OplInit
| SerialBegin (baud : Z)
| PinMode (pin : Z)
| SetTremolo (ch : Z) (op : Operator) (on : bool)
| SetVibrato (ch : Z) (op : Operator) (on : bool)
| SetMultiplier (ch : Z) (op : Operator) (v : Z)
| SetAttack (ch : Z) (op : Operator) (v : Z)
| SetDecay (ch : Z) (op : Operator) (v : Z)
| SetSustain (ch : Z) (op : Operator) (v : Z)
| SetRelease (ch : Z) (op : Operator) (v : Z)
| PlayNote (ch octave note : Z)
| PrintSetting (value i : Z)
| PrintPressed (key : Z)
| PrintReleased (key : Z).

(** The globals [channels], [base], [settings], and the output so far. *)
Record State : Type := mkState {
  channels : list Channel;
  base : Z;
  settings : list Z;
  trace : list Event
}.

(** The pins during one pass: [analogRead inp pin] is the [int] returned by
    [analogRead(pin)]; [digitalRead inp pin n] is [true] when the n-th call
    of [digitalRead(pin)] in this pass returns [HIGH]. *)
Record Inputs : Type := mkInputs {
  analogRead : Z → Z;
  digitalRead : Z → nat → bool
}.

(** [bool tremolo = true; bool vibrato = true;] (never assigned). *)
Definition tremolo : bool := true.
Definition vibrato : bool := true.

(** Conversion of an [int] to [byte] (8-bit unsigned). *)
Definition to_byte (z : Z) : Z := z mod 256.

(** ** The monad: state passing, [None] for an out-of-bounds array access *)

Definition UB (A : Type) : Type := State → option (A * State).

Definition ret {A : Type} (x : A) : UB A := λ s, Some (x, s).

Definition bind {A B : Type} (m : UB A) (k : A → UB B) : UB B :=
  λ s, match m s with
       | Some (x, s') => k x s'
       | None => None
       end.

Declare Scope ub_scope.
Delimit Scope ub_scope with ub.
Bind Scope ub_scope with UB.
Notation "x <- m ;; k" := (bind m (λ x, k))
  (at level 100, m at next level, right associativity) : ub_scope.
Notation "m ;; k" := (bind m (λ _, k))
  (at level 100, right associativity) : ub_scope.
Local Open Scope ub_scope.

(** [channels[a]] as an rvalue. *)
Definition readChannel (a : nat) : UB Channel :=
  λ s, match channels s !! a with
       | Some c => Some (c, s)
       | None => None
       end.

(** [channels[a] = c]. *)
Definition writeChannel (a : nat) (c : Channel) : UB unit :=
  λ s, if decide (a < length (channels s))%nat
       then Some (tt, mkState (<[a := c]> (channels s)) (base s) (settings s) (trace s))
       else None.

(** [channels[i].pressedKey = v], the index being an [int]. *)
Definition writePressedKey (i : Z) (v : Z) : UB unit :=
  if decide (0 <= i)
  then c <- readChannel (Z.to_nat i) ;;
       writeChannel (Z.to_nat i) (mkChannel (id c) v (playing c))
  else λ _, None.

(** [settings[i]] as an rvalue, and [settings[i] = v]. *)
Definition readSetting (i : nat) : UB Z :=
  λ s, match settings s !! i with
       | Some v => Some (v, s)
       | None => None
       end.

Definition writeSetting (i : nat) (v : Z) : UB unit :=
  λ s, if decide (i < length (settings s))%nat
       then Some (tt, mkState (channels s) (base s) (<[i := v]> (settings s)) (trace s))
       else None.

Definition readBase : UB Z := λ s, Some (base s, s).

Definition writeBase (b : Z) : UB unit :=
  λ s, Some (tt, mkState (channels s) b (settings s) (trace s)).

(** A call to the driver or to the serial port. *)
Definition emit (e : Event) : UB unit :=
  λ s, Some (tt, mkState (channels s) (base s) (settings s) (trace s ++ [e])).

(** [for (i = start; i < start + n; i++) body(i);] *)
Fixpoint forLoop (i : nat) (n : nat) (body : nat → UB unit) : UB unit :=
  match n with
  | O => ret tt
  | S n' => body i ;; forLoop (S i) n' body
  end.

(** ** getChannel *)

(** [for (int a = start; a < start + n; a++) if (p(channels[a])) return
    channels[a];]: [Some c] is the early return, [None] falls through. *)
Fixpoint scanChannels (p : Channel → bool) (a : nat) (n : nat) : UB (option Channel) :=
  match n with
  | O => ret None
  | S n' =>
      c <- readChannel a ;;
      if p c then ret (Some c) else scanChannels p (S a) n'
  end.

(** [channels[a].pressedKey == key && !channels[a].playing] *)
Definition holdsKey (key : Z) (c : Channel) : bool :=
  (pressedKey c =? key) && negb (playing c).

Definition getChannel (key : Z) : UB Channel :=
  r <- scanChannels (holdsKey key) 0 (Z.to_nat AMOUNT_OF_CHANNELS) ;;
  match r with
  | Some c => ret c
  | None =>
      r' <- scanChannels (holdsKey NONE) 0 (Z.to_nat AMOUNT_OF_CHANNELS) ;;
      match r' with
      | Some c => ret c
      | None => readChannel 0
      end
  end.

(** ** playNoteFromBase and altBase *)

(** [byte note = base + offset; byte noteInScale = note % 12;
    byte octive = (note - noteInScale) / 12;] *)
Definition playNoteFromBase (channel offset : Z) : UB unit :=
  b <- readBase ;;
  let note := to_byte (b + offset) in
  let noteInScale := to_byte (Z.rem note 12) in
  let octive := to_byte ((note - noteInScale) ÷ 12) in
  emit (PlayNote channel octive noteInScale).

(** [if ((base + alt) >= LOWEST_NOTE && (base + alt) < (HIGHEST_NOTE -
    AMOUNT_OF_KEYS)) base += alt;]  The sum is an [int]; the sketch calls
    [altBase] with -1 and 1 only, for which it cannot overflow. *)
Definition altBase (alt : Z) : UB unit :=
  b <- readBase ;;
  if (LOWEST_NOTE <=? b + alt) && (b + alt <? HIGHEST_NOTE - AMOUNT_OF_KEYS)
  then writeBase (to_byte (b + alt))
  else ret tt.

(** ** manageSettings *)

(** One iteration of the first loop, for setting [i]. *)
Definition settingBody (inp : Inputs) (i : nat) : UB unit :=
  let analog := to_byte (analogRead inp (Z.of_nat i)) in
  let value := to_byte (analog ÷ 64) in
  old <- readSetting i ;;
  if negb (old =? value) && negb (analog =? 0)
  then writeSetting i value ;; emit (PrintSetting value (Z.of_nat i))
  else ret tt.

(** One iteration of the second loop, for channel [i]. *)
Definition channelBody (i : nat) : UB unit :=
  c <- readChannel i ;;
  if negb (playing c)
  then
    emit (SetTremolo (Z.of_nat i) CARRIER tremolo) ;;
    emit (SetVibrato (Z.of_nat i) CARRIER vibrato) ;;
    v0 <- readSetting 0 ;; emit (SetMultiplier (Z.of_nat i) CARRIER v0) ;;
    v1 <- readSetting 1 ;; emit (SetAttack (Z.of_nat i) CARRIER v1) ;;
    v2 <- readSetting 2 ;; emit (SetDecay (Z.of_nat i) CARRIER v2) ;;
    v3 <- readSetting 3 ;; emit (SetSustain (Z.of_nat i) CARRIER v3) ;;
    v4 <- readSetting 4 ;; emit (SetRelease (Z.of_nat i) CARRIER v4)
  else ret tt.

Definition manageSettings (inp : Inputs) : UB unit :=
  forLoop 0 (Z.to_nat AMOUNT_OF_SETTINGS) (settingBody inp) ;;
  forLoop 0 (Z.to_nat AMOUNT_OF_CHANNELS) channelBody.

(** ** manageKeys *)

(** The body of the key loop.  [channel] is a copy of the table entry, and
    the writes go to [channels[channel.id]]. *)
Definition keyBody (inp : Inputs) (key : Z) : UB unit :=
  channel <- getChannel key ;;
  if digitalRead inp (key + FIRST_KEY_PIN) 0 && (pressedKey channel =? NONE)
  then
    playNoteFromBase (to_byte (id channel)) key ;;
    writePressedKey (id channel) key ;;
    emit (PrintPressed key)
  else if negb (digitalRead inp (key + FIRST_KEY_PIN) 1) && (pressedKey channel =? key)
  then
    writePressedKey (id channel) NONE ;;
    emit (PrintReleased key)
  else ret tt.

Definition manageKeys (inp : Inputs) : UB unit :=
  forLoop 0 (Z.to_nat AMOUNT_OF_KEYS) (λ key, keyBody inp (Z.of_nat key)) ;;
  (if digitalRead inp MOVE_DOWN_1_PIN 0 then altBase (-1) else ret tt) ;;
  (if digitalRead inp MOVE_UP_1_PIN 0 then altBase 1 else ret tt).

(** ** setup and loop *)

(** The globals before [setup] runs: [channels] is zero-initialised, [base]
    and [settings] have their initialisers. *)
Definition power_on : State :=
  mkState (replicate (Z.to_nat AMOUNT_OF_CHANNELS) (mkChannel 0 0 false))
          BASE_NOTE [8; 10; 4; 4; 15] [].

Definition setup (inp : Inputs) : UB unit :=
  emit OplInit ;;
  emit (SerialBegin 9600) ;;
  manageSettings inp ;;
  forLoop 0 (Z.to_nat AMOUNT_OF_CHANNELS)
    (λ i, writeChannel i (mkChannel (Z.of_nat i) NONE false)) ;;
  forLoop 0 (Z.to_nat (AMOUNT_OF_KEYS + AMOUNT_OF_EXTRA_KEYS))
    (λ i, emit (PinMode (Z.of_nat i + FIRST_KEY_PIN))).

(** One iteration of [loop()]; [delay(LOOP_DELAY)] only paces the passes. *)
Definition loop (inp : Inputs) : UB unit :=
  manageSettings inp ;;
  manageKeys inp.

(** [setup()] followed by one [loop()] per element of [ticks]. *)
Fixpoint loops (ticks : list Inputs) : UB unit :=
  match ticks with
  | [] => ret tt
  | inp :: rest => loop inp ;; loops rest
  end.

Definition run (boot : Inputs) (ticks : list Inputs) : UB unit :=
  setup boot ;; loops ticks.

(** * Properties *)

(** ** Vocabulary of the statements *)

(** The array [channels] has [AMOUNT_OF_CHANNELS] elements and [settings]
    has [AMOUNT_OF_SETTINGS]: this is their C++ type. *)
Definition well_sized (s : State) : Prop :=
  length (channels s) = Z.to_nat AMOUNT_OF_CHANNELS ∧
  length (settings s) = Z.to_nat AMOUNT_OF_SETTINGS.

(** The channel is bound to [key] and is not playing. *)
Definition bound_idle (key : Z) (c : Channel) : Prop :=
  pressedKey c = key ∧ playing c = false.

(** [c] is the element of [l] with the lowest index that satisfies [P]. *)
Definition first_channel (P : Channel → Prop) (l : list Channel) (c : Channel) : Prop :=
  ∃ i : nat, l !! i = Some c ∧ P c ∧
    ∀ (j : nat) (c' : Channel), (j < i)%nat → l !! j = Some c' → ¬ P c'.

Definition no_channel (P : Channel → Prop) (l : list Channel) : Prop :=
  ∀ (j : nat) (c' : Channel), l !! j = Some c' → ¬ P c'.

(** The [id] of every channel is its index, as [setup] leaves it. *)
Definition ids_ok (s : State) : Prop :=
  ∀ (i : nat) (c : Channel), channels s !! i = Some c → id c = Z.of_nat i.

(** No channel is playing. *)
Definition all_idle (s : State) : Prop :=
  ∀ (i : nat) (c : Channel), channels s !! i = Some c → playing c = false.

Definition table_ok (s : State) : Prop :=
  well_sized s ∧ ids_ok s ∧ all_idle s.

(** No two channels hold the same key. *)
Definition one_channel_per_key (s : State) : Prop :=
  ∀ (k : Z) (i j : nat) (ci cj : Channel),
    k ≠ NONE →
    channels s !! i = Some ci → channels s !! j = Some cj →
    pressedKey ci = k → pressedKey cj = k → i = j.

(** Some channel holds [key]; with [NONE] for [key], some channel is free. *)
Definition key_bound (key : Z) (s : State) : Prop :=
  ∃ (i : nat) (c : Channel), channels s !! i = Some c ∧ pressedKey c = key.

(** A sequence of calls [altBase(alt)], one per element. *)
Fixpoint altBases (alts : list Z) : UB unit :=
  match alts with
  | [] => ret tt
  | alt :: rest => altBase alt ;; altBases rest
  end.

(** [n] times [altBase(1); altBase(-1);], and [n] times the other order. *)
Fixpoint upDown (n : nat) : UB unit :=
  match n with
  | O => ret tt
  | S n' => altBase 1 ;; altBase (-1) ;; upDown n'
  end.

Fixpoint downUp (n : nat) : UB unit :=
  match n with
  | O => ret tt
  | S n' => altBase (-1) ;; altBase 1 ;; downUp n'
  end.

(** The state [s] with another base note. *)
Definition with_base (b : Z) (s : State) : State :=
  mkState (channels s) b (settings s) (trace s).

(** The seven driver calls that the second loop of [manageSettings] makes
    for channel [i] when the settings vector is [st]. *)
Definition settingCalls (st : list Z) (i : nat) : list Event :=
  [ SetTremolo (Z.of_nat i) CARRIER tremolo;
    SetVibrato (Z.of_nat i) CARRIER vibrato;
    SetMultiplier (Z.of_nat i) CARRIER (nth 0 st 0);
    SetAttack (Z.of_nat i) CARRIER (nth 1 st 0);
    SetDecay (Z.of_nat i) CARRIER (nth 2 st 0);
    SetSustain (Z.of_nat i) CARRIER (nth 3 st 0);
    SetRelease (Z.of_nat i) CARRIER (nth 4 st 0) ].

(** What one iteration of the first loop of [manageSettings] leaves in
    [settings[i]], from the [int] read on the pin and the stored value. *)
Definition accepted (raw old : Z) : Z :=
  let analog := to_byte raw in
  let value := to_byte (analog ÷ 64) in
  if negb (old =? value) && negb (analog =? 0) then value else old.

(** Every channel is free or holds one of the keys of the sketch. *)
Definition keys_in_range (s : State) : Prop :=
  ∀ (i : nat) (c : Channel), channels s !! i = Some c →
    pressedKey c = NONE ∨ 0 <= pressedKey c < AMOUNT_OF_KEYS.

(** What holds at every point of an execution. *)
Definition invariant (s : State) : Prop :=
  table_ok s ∧ one_channel_per_key s ∧ keys_in_range s.

(** The points of an execution: [setup], then any number of settings
    passes, iterations of the key loop (for the keys of the sketch) and
    moves of the base note, in any order.  Every pass of [loop] is a
    sequence of such steps. *)
Inductive step : State → State → Prop :=
| step_settings (inp : Inputs) (s s' : State) :
    manageSettings inp s = Some (tt, s') → step s s'
| step_key (inp : Inputs) (key : Z) (s s' : State) :
    0 <= key < AMOUNT_OF_KEYS →
    keyBody inp key s = Some (tt, s') → step s s'
| step_down (s s' : State) :
    altBase (-1) s = Some (tt, s') → step s s'
| step_up (s s' : State) :
    altBase 1 s = Some (tt, s') → step s s'.

Inductive reachable : State → Prop :=
| reach_setup (boot : Inputs) (s : State) :
    setup boot power_on = Some (tt, s) → reachable s
| reach_step (s s' : State) :
    reachable s → step s s' → reachable s'.

(** Inputs and states used in the examples. *)
Definition quiet : Inputs := mkInputs (λ _, 0) (λ _ _, false).

Definition press (k : Z) : Inputs :=
  mkInputs (λ _, 0) (λ pin _, pin =? k + FIRST_KEY_PIN).

(** The keys of [ks] are down, everything else reads low. *)
Definition keys_down (ks : list Z) : Inputs :=
  mkInputs (λ _, 0) (λ pin _, existsb (λ k, pin =? k + FIRST_KEY_PIN) ks).

(** The keys held by the channels after [setup] and the given passes. *)
Definition bindings_after (ticks : list Inputs) : option (list Z) :=
  match run quiet ticks power_on with
  | Some (_, s) => Some (map pressedKey (channels s))
  | None => None
  end.

(** The driver calls [playNote] among the output of the given passes. *)
Definition notes_after (ticks : list Inputs) : option (list Event) :=
  match run quiet ticks power_on with
  | Some (_, s) =>
      Some (List.filter (λ e, match e with PlayNote _ _ _ => true | _ => false end)
                        (trace s))
  | None => None
  end.

Definition table_of (keys : list Z) : list Channel :=
  imap (λ i k, mkChannel (Z.of_nat i) k false) keys.

Definition fresh : State :=
  mkState (table_of [NONE; NONE; NONE; NONE; NONE; NONE; NONE; NONE])
          BASE_NOTE [8; 10; 4; 4; 15] [].

Definition exhausted : State :=
  mkState (table_of [10; 11; 12; 13; 14; 15; 16; 17])
          BASE_NOTE [8; 10; 4; 4; 15] [].

(** The state that [setup] leaves when every pin reads low, and that state
    after the iteration of the key loop for key 0, with key 0 pressed. *)
Definition booted : State :=
  match setup quiet power_on with
  | Some (_, s) => s
  | None => power_on
  end.

Definition held : State :=
  match keyBody (press 0) 0 booted with
  | Some (_, s) => s
  | None => booted
  end.

(** The argument ranges of the calls to the driver: a channel is 0..7, an
    octave 0..7 and a note 0..11 ([HIGHEST_NOTE] is 8 octaves of 12 notes). *)
Definition valid_event (e : Event) : Prop :=
  match e with
  | SetTremolo ch _ _ | SetVibrato ch _ _
  | SetMultiplier ch _ _ | SetAttack ch _ _ | SetDecay ch _ _
  | SetSustain ch _ _ | SetRelease ch _ _ => 0 <= ch < AMOUNT_OF_CHANNELS
  | PlayNote ch octave note =>
      0 <= ch < AMOUNT_OF_CHANNELS ∧
      0 <= octave < HIGHEST_NOTE / 12 ∧ 0 <= note < 12
  | _ => True
  end.

(** The lines that the first loop of [manageSettings] prints. *)
Definition isPrintSetting (e : Event) : Prop :=
  match e with
  | PrintSetting _ _ => True
  | _ => False
  end.

(** Every setting has the value of its initialiser or a quantised sample,
    which is in 0..3. *)
Definition settings_ok (s : State) : Prop :=
  ∀ (i : nat) (v : Z), settings s !! i = Some v →
    settings power_on !! i = Some v ∨ 0 <= v <= 3.

(** The base note is in the range that [altBase] keeps. *)
Definition base_ok (s : State) : Prop :=
  LOWEST_NOTE <= base s < HIGHEST_NOTE - AMOUNT_OF_KEYS.

(** The settings vector after a settings pass over the vector [st]. *)
Definition sampled (inp : Inputs) (st : list Z) : list Z :=
  imap (λ i old, accepted (analogRead inp (Z.of_nat i)) old) st.

(** What the first loop of [manageSettings] prints for setting [i]: a line
    when the value changes, nothing otherwise. *)
Definition settingPrint (inp : Inputs) (st : list Z) (i : nat) : list Event :=
  match st !! i with
  | Some old =>
      let new := accepted (analogRead inp (Z.of_nat i)) old in
      if decide (new = old) then [] else [PrintSetting new (Z.of_nat i)]
  | None => []
  end.

(** The driver calls of the second loop for channel [i]: none when the
    channel is playing. *)
Definition channelCalls (chs : list Channel) (st : list Z) (i : nat) : list Event :=
  match chs !! i with
  | Some c => if playing c then [] else settingCalls st i
  | None => []
  end.

(** Where the two transposition pins leave a base note [b] at the end of a
    pass of [manageKeys]: down is tried first, then up. *)
Definition transposed (inp : Inputs) (b : Z) : Z :=
  match digitalRead inp MOVE_DOWN_1_PIN 0, digitalRead inp MOVE_UP_1_PIN 0 with
  | false, false => b
  | true, false => Z.max LOWEST_NOTE (b - 1)
  | false, true => Z.min (HIGHEST_NOTE - AMOUNT_OF_KEYS - 1) (b + 1)
  | true, true => if b =? LOWEST_NOTE then b + 1 else b
  end.

(** What the driver and the settings look like along an execution. *)
Definition driver_ok (s : State) : Prop :=
  base_ok s ∧ settings_ok s ∧ Forall valid_event (trace s).

#[local] Instance bound_idle_dec (key : Z) (c : Channel) : Decision (bound_idle key c).
Proof. unfold bound_idle. apply _. Defined.

(** ** The monad *)

Lemma bind_Some {A B : Type} (m : UB A) (k : A → UB B) (s s' : State) (x : A) :
  m s = Some (x, s') → bind m k s = k x s'.
Proof. intros H. unfold bind. now rewrite H. Qed.

(** ** The sketch on a few passes *)

(** Key 0 takes channel 0; key 1, pressed while key 0 is held, takes
    channel 1; key 0 released and pressed again takes channel 0 again. *)
Example press_two_keys :
  bindings_after [keys_down [0]; keys_down [0; 1]]
  = Some [0; 1; NONE; NONE; NONE; NONE; NONE; NONE].
Proof. vm_compute. reflexivity. Qed.

Example release_and_press_again :
  bindings_after [keys_down [0]; keys_down [0; 1]; keys_down [1]; keys_down [0; 1]]
  = Some [0; 1; NONE; NONE; NONE; NONE; NONE; NONE].
Proof. vm_compute. reflexivity. Qed.

(** From base 36, key 0 plays note 0 of octave 3 and key 2 note 2 of octave
    3, on the channels they took. *)
Example notes_from_base :
  notes_after [keys_down [0; 2]] = Some [PlayNote 0 3 0; PlayNote 1 3 2].
Proof. vm_compute. reflexivity. Qed.

(** With the eight channels held by eight other keys, [getChannel] falls
    back to channel 0, which is in use. *)
Example fallback_on_full_table :
  getChannel 0 exhausted = Some (mkChannel 0 10 false, exhausted).
Proof. reflexivity. Qed.

(** ** getChannel *)

Lemma holdsKey_true (key : Z) (c : Channel) :
  holdsKey key c = true ↔ bound_idle key c.
Proof.
  unfold holdsKey, bound_idle.
  rewrite andb_true_iff, Z.eqb_eq, negb_true_iff. tauto.
Qed.

Lemma holdsKey_false (key : Z) (c : Channel) :
  holdsKey key c = false ↔ ¬ bound_idle key c.
Proof.
  rewrite <- holdsKey_true. destruct (holdsKey key c); split; congruence.
Qed.

(** The scan falls through when no element of the scanned window passes. *)
Lemma scanChannels_none (p : Channel → bool) (n a : nat) (s : State) :
  (a + n ≤ length (channels s))%nat →
  (∀ j c, (a ≤ j < a + n)%nat → channels s !! j = Some c → p c = false) →
  scanChannels p a n s = Some (None, s).
Proof.
  revert a. induction n as [|n IH]; intros a Hlen Hno; [reflexivity|].
  cbn [scanChannels]. unfold bind at 1, readChannel.
  destruct (lookup_lt_is_Some_2 (channels s) a ltac:(lia)) as [c Hc].
  rewrite Hc, (Hno a c) by (done || lia).
  apply IH; [lia|]. intros j c' Hj. apply Hno. lia.
Qed.

(** The scan returns the first element of the window that passes. *)
Lemma scanChannels_first (p : Channel → bool) (n a i : nat) (c : Channel) (s : State) :
  (a ≤ i < a + n)%nat →
  channels s !! i = Some c → p c = true →
  (∀ j c', (a ≤ j < i)%nat → channels s !! j = Some c' → p c' = false) →
  scanChannels p a n s = Some (Some c, s).
Proof.
  revert a. induction n as [|n IH]; intros a Hi Hc Hp Hno; [lia|].
  cbn [scanChannels]. unfold bind at 1, readChannel.
  destruct (decide (a = i)) as [->|Hne].
  - now rewrite Hc, Hp.
  - assert (is_Some (channels s !! a)) as [ca Hca].
    { apply lookup_lt_is_Some_2. apply lookup_lt_Some in Hc. lia. }
    rewrite Hca, (Hno a ca) by (done || lia).
    apply IH; [lia|done|done|]. intros j c' Hj. apply Hno. lia.
Qed.

(** Either some channel passes, and then there is a first one, or none. *)
Lemma first_or_none (P : Channel → Prop) `{∀ c, Decision (P c)} (l : list Channel) :
  (∃ c, first_channel P l c) ∨ no_channel P l.
Proof.
  destruct (list_find P l) as [[i c]|] eqn:E.
  - left. exists c, i. apply list_find_Some in E as (Hc & HP & Hmin).
    split; [done|]. split; [done|]. intros j c' Hj Hc'. now apply (Hmin j).
  - right. apply list_find_None in E. intros j c' Hc'.
    rewrite Forall_lookup in E. now apply (E j).
Qed.

Lemma scan_first_channel (key : Z) (s : State) (c : Channel) :
  length (channels s) = Z.to_nat AMOUNT_OF_CHANNELS →
  first_channel (bound_idle key) (channels s) c →
  scanChannels (holdsKey key) 0 (Z.to_nat AMOUNT_OF_CHANNELS) s = Some (Some c, s).
Proof.
  intros Hlen (i & Hc & HP & Hmin).
  apply (scanChannels_first _ _ 0 i); [|done|now apply holdsKey_true|].
  - apply lookup_lt_Some in Hc. lia.
  - intros j c' Hj Hc'. apply holdsKey_false. apply (Hmin j); [lia|done].
Qed.

Lemma scan_no_channel (key : Z) (s : State) :
  length (channels s) = Z.to_nat AMOUNT_OF_CHANNELS →
  no_channel (bound_idle key) (channels s) →
  scanChannels (holdsKey key) 0 (Z.to_nat AMOUNT_OF_CHANNELS) s = Some (None, s).
Proof.
  intros Hlen Hno. apply scanChannels_none; [lia|].
  intros j c' _ Hc'. apply holdsKey_false. now apply (Hno j).
Qed.

(** The three cases of [getChannel], as equations. *)
Lemma getChannel_bound (key : Z) (s : State) (c : Channel) :
  length (channels s) = Z.to_nat AMOUNT_OF_CHANNELS →
  first_channel (bound_idle key) (channels s) c →
  getChannel key s = Some (c, s).
Proof.
  intros Hlen Hc. unfold getChannel.
  now rewrite (bind_Some _ _ _ _ _ (scan_first_channel key s c Hlen Hc)).
Qed.

Lemma getChannel_free (key : Z) (s : State) (c : Channel) :
  length (channels s) = Z.to_nat AMOUNT_OF_CHANNELS →
  no_channel (bound_idle key) (channels s) →
  first_channel (bound_idle NONE) (channels s) c →
  getChannel key s = Some (c, s).
Proof.
  intros Hlen Hno Hc. unfold getChannel.
  rewrite (bind_Some _ _ _ _ _ (scan_no_channel key s Hlen Hno)).
  now rewrite (bind_Some _ _ _ _ _ (scan_first_channel NONE s c Hlen Hc)).
Qed.

Lemma getChannel_fallback (key : Z) (s : State) (c : Channel) :
  length (channels s) = Z.to_nat AMOUNT_OF_CHANNELS →
  no_channel (bound_idle key) (channels s) →
  no_channel (bound_idle NONE) (channels s) →
  channels s !! 0%nat = Some c →
  getChannel key s = Some (c, s).
Proof.
  intros Hlen Hno Hfree Hc. unfold getChannel.
  rewrite (bind_Some _ _ _ _ _ (scan_no_channel key s Hlen Hno)).
  rewrite (bind_Some _ _ _ _ _ (scan_no_channel NONE s Hlen Hfree)).
  unfold readChannel. now rewrite Hc.
Qed.

(** C1. For every key and every table of [AMOUNT_OF_CHANNELS] channels,
    [getChannel key] returns a channel and leaves the state as it was; the
    channel is the first one (lowest index) with [pressedKey == key] that is
    not playing; if there is none, the first one with [pressedKey == NONE]
    that is not playing; if there is none either, [channels[0]]. *)
Theorem getChannel_first_fit (key : Z) (s : State) :
  length (channels s) = Z.to_nat AMOUNT_OF_CHANNELS →
  ∃ c : Channel,
    getChannel key s = Some (c, s) ∧
    (first_channel (bound_idle key) (channels s) c
     ∨ (no_channel (bound_idle key) (channels s) ∧
        first_channel (bound_idle NONE) (channels s) c)
     ∨ (no_channel (bound_idle key) (channels s) ∧
        no_channel (bound_idle NONE) (channels s) ∧
        channels s !! 0%nat = Some c)).
Proof.
  intros Hlen.
  destruct (first_or_none (bound_idle key) (channels s)) as [[c Hc]|Hno].
  { exists c. split; [now apply getChannel_bound|now left]. }
  destruct (first_or_none (bound_idle NONE) (channels s)) as [[c Hc]|Hfree].
  { exists c. split; [now apply getChannel_free|right; now left]. }
  assert (is_Some (channels s !! 0%nat)) as [c Hc].
  { apply lookup_lt_is_Some_2. rewrite Hlen. cbv. lia. }
  exists c. split; [now apply getChannel_fallback|]. right; right. done.
Qed.

(** The statement at a table where key 11 is held by channel 1. *)
Lemma getChannel_first_fit_witness :
  ∃ c : Channel,
    getChannel 11 exhausted = Some (c, exhausted) ∧
    (first_channel (bound_idle 11) (channels exhausted) c
     ∨ (no_channel (bound_idle 11) (channels exhausted) ∧
        first_channel (bound_idle NONE) (channels exhausted) c)
     ∨ (no_channel (bound_idle 11) (channels exhausted) ∧
        no_channel (bound_idle NONE) (channels exhausted) ∧
        channels exhausted !! 0%nat = Some c)).
Proof. apply (getChannel_first_fit 11 exhausted). reflexivity. Defined.

(** [getChannel] returns on every table of the right size. *)
Lemma getChannel_returns (key : Z) (s : State) :
  length (channels s) = Z.to_nat AMOUNT_OF_CHANNELS →
  ∃ c : Channel, getChannel key s = Some (c, s).
Proof.
  intros Hlen.
  destruct (first_or_none (bound_idle key) (channels s)) as [[c Hc]|Hno].
  { exists c. now apply getChannel_bound. }
  destruct (first_or_none (bound_idle NONE) (channels s)) as [[c Hc]|Hfree].
  { exists c. now apply getChannel_free. }
  assert (is_Some (channels s !! 0%nat)) as [c Hc].
  { apply lookup_lt_is_Some_2. rewrite Hlen. cbv. lia. }
  exists c. now apply getChannel_fallback.
Qed.

(** C9. [getChannel] has no side effect: the state after the call is the
    state before it; and two calls in a row, with nothing in between, return
    the same channel. *)
Theorem getChannel_pure_idempotent (key : Z) (s : State) :
  length (channels s) = Z.to_nat AMOUNT_OF_CHANNELS →
  ∃ c : Channel,
    getChannel key s = Some (c, s) ∧
    (a <- getChannel key ;; b <- getChannel key ;; ret (a, b)) s
      = Some ((c, c), s).
Proof.
  intros Hlen. destruct (getChannel_returns key s Hlen) as [c Hc].
  exists c. split; [done|].
  rewrite (bind_Some _ _ _ _ _ Hc). now rewrite (bind_Some _ _ _ _ _ Hc).
Qed.

Lemma getChannel_pure_idempotent_witness :
  ∃ c : Channel,
    getChannel 2 fresh = Some (c, fresh) ∧
    (a <- getChannel 2 ;; b <- getChannel 2 ;; ret (a, b)) fresh
      = Some ((c, c), fresh).
Proof. apply (getChannel_pure_idempotent 2 fresh). reflexivity. Defined.

(** ** playNoteFromBase *)

(** C5. When [base + offset] is in [0, 96), [playNoteFromBase] plays, on
    the given channel, the note [(base + offset) mod 12] in an octave with
    [octave * 12 + note = base + offset], and [0 <= note < 12]. *)
Theorem playNoteFromBase_octave_note (channel offset : Z) (s : State) :
  0 <= base s + offset < HIGHEST_NOTE →
  ∃ octive noteInScale : Z,
    playNoteFromBase channel offset s
      = Some (tt, mkState (channels s) (base s) (settings s)
                          (trace s ++ [PlayNote channel octive noteInScale])) ∧
    noteInScale = (base s + offset) mod 12 ∧
    octive * 12 + noteInScale = base s + offset ∧
    0 <= noteInScale < 12.
Proof.
  unfold HIGHEST_NOTE. intros Hrange.
  unfold playNoteFromBase, bind, readBase, emit. cbv zeta.
  eexists _, _. split; [reflexivity|].
  unfold to_byte. Z.to_euclidean_division_equations. lia.
Qed.

Lemma playNoteFromBase_octave_note_witness :
  ∃ octive noteInScale : Z,
    playNoteFromBase 0 2 (with_base 37 fresh)
      = Some (tt, mkState (channels fresh) 37 (settings fresh)
                          [PlayNote 0 octive noteInScale]) ∧
    noteInScale = (37 + 2) mod 12 ∧
    octive * 12 + noteInScale = 37 + 2 ∧
    0 <= noteInScale < 12.
Proof.
  apply (playNoteFromBase_octave_note 0 2 (with_base 37 fresh)).
  unfold HIGHEST_NOTE. simpl. lia.
Defined.

(** ** altBase *)

Lemma altBase_in_range (alt : Z) (s : State) :
  LOWEST_NOTE <= base s + alt < HIGHEST_NOTE - AMOUNT_OF_KEYS →
  altBase alt s = Some (tt, with_base (base s + alt) s).
Proof.
  intros Hrange. unfold altBase, bind, readBase.
  assert ((LOWEST_NOTE <=? base s + alt)
          && (base s + alt <? HIGHEST_NOTE - AMOUNT_OF_KEYS) = true) as ->.
  { apply andb_true_iff. rewrite Z.leb_le, Z.ltb_lt. lia. }
  unfold writeBase, with_base, to_byte. do 3 f_equal.
  apply Z.mod_small. unfold LOWEST_NOTE, HIGHEST_NOTE, AMOUNT_OF_KEYS in Hrange. lia.
Qed.

Lemma altBase_out_of_range (alt : Z) (s : State) :
  ¬ (LOWEST_NOTE <= base s + alt < HIGHEST_NOTE - AMOUNT_OF_KEYS) →
  altBase alt s = Some (tt, s).
Proof.
  intros Hout. unfold altBase, bind, readBase.
  assert ((LOWEST_NOTE <=? base s + alt)
          && (base s + alt <? HIGHEST_NOTE - AMOUNT_OF_KEYS) = false) as ->; [|done].
  apply andb_false_iff. rewrite Z.leb_gt, Z.ltb_ge. lia.
Qed.

Lemma with_base_same (s : State) : with_base (base s) s = s.
Proof. now destruct s. Qed.

(** One call keeps the base note in range, and touches nothing else. *)
Lemma altBase_keeps_range (alt : Z) (s : State) :
  LOWEST_NOTE <= base s < HIGHEST_NOTE - AMOUNT_OF_KEYS →
  ∃ b : Z, altBase alt s = Some (tt, with_base b s) ∧
           LOWEST_NOTE <= b < HIGHEST_NOTE - AMOUNT_OF_KEYS.
Proof.
  intros Hb.
  destruct (decide (LOWEST_NOTE <= base s + alt < HIGHEST_NOTE - AMOUNT_OF_KEYS)) as [Hin|Hout].
  - exists (base s + alt). split; [now apply altBase_in_range|done].
  - exists (base s). rewrite with_base_same. split; [now apply altBase_out_of_range|done].
Qed.

(** C6. [altBase alt] sets the base note to [base + alt] when
    [LOWEST_NOTE <= base + alt < HIGHEST_NOTE - AMOUNT_OF_KEYS] and changes
    nothing otherwise; so from a base note in [0, 96 - AMOUNT_OF_KEYS) no
    sequence of calls leaves that interval. *)
Theorem altBase_stays_in_range (alt : Z) (alts : list Z) (s : State) :
  (LOWEST_NOTE <= base s + alt < HIGHEST_NOTE - AMOUNT_OF_KEYS →
   altBase alt s = Some (tt, with_base (base s + alt) s)) ∧
  (¬ (LOWEST_NOTE <= base s + alt < HIGHEST_NOTE - AMOUNT_OF_KEYS) →
   altBase alt s = Some (tt, s)) ∧
  (0 <= base s < 96 - AMOUNT_OF_KEYS →
   ∃ s' : State, altBases alts s = Some (tt, s') ∧
                 0 <= base s' < 96 - AMOUNT_OF_KEYS).
Proof.
  split; [apply altBase_in_range|]. split; [apply altBase_out_of_range|].
  revert s. induction alts as [|a rest IH]; intros s Hb.
  - now exists s.
  - destruct (altBase_keeps_range a s Hb) as (b & Hstep & Hb').
    cbn [altBases]. rewrite (bind_Some _ _ _ _ _ Hstep). now apply IH.
Qed.

(** The three parts at base 91: one step up is taken, the next is refused,
    and a run of steps ends in range. *)
Lemma altBase_stays_in_range_witness :
  altBase 1 (with_base 91 fresh) = Some (tt, with_base 92 fresh) ∧
  altBase 1 (with_base 92 fresh) = Some (tt, with_base 92 fresh) ∧
  ∃ s' : State, altBases [1; 1; -1; 1] (with_base 91 fresh) = Some (tt, s') ∧
                0 <= base s' < 96 - AMOUNT_OF_KEYS.
Proof.
  split; [|split].
  - apply (proj1 (altBase_stays_in_range 1 [] (with_base 91 fresh))).
    unfold LOWEST_NOTE, HIGHEST_NOTE, AMOUNT_OF_KEYS. simpl. lia.
  - apply (proj1 (proj2 (altBase_stays_in_range 1 [] (with_base 92 fresh)))).
    unfold LOWEST_NOTE, HIGHEST_NOTE, AMOUNT_OF_KEYS. simpl. lia.
  - apply (proj2 (proj2 (altBase_stays_in_range 1 [1; 1; -1; 1] (with_base 91 fresh)))).
    unfold AMOUNT_OF_KEYS. simpl. lia.
Defined.

(** C7 fails as stated.  At the top of the range the step up is refused
    and the step down is taken: from 92 the pair [altBase(1); altBase(-1)] ends at 91.  So the
    round trip does not hold on the whole of [0, 96 - AMOUNT_OF_KEYS). *)
Lemma up_down_at_top_moves_base :
  ¬ (∀ s : State,
       0 <= base s < 96 - AMOUNT_OF_KEYS →
       ∃ s' : State, (altBase 1 ;; altBase (-1)) s = Some (tt, s') ∧ base s' = base s).
Proof.
  intros Hclaim.
  destruct (Hclaim (with_base 92 fresh)) as (s' & Hrun & Hbase).
  { unfold AMOUNT_OF_KEYS. simpl. lia. }
  vm_compute in Hrun. injection Hrun as <-. simpl in Hbase. discriminate.
Qed.

Lemma up_then_down (s : State) :
  0 <= base s < 96 - AMOUNT_OF_KEYS - 1 →
  (altBase 1 ;; altBase (-1)) s = Some (tt, s).
Proof.
  unfold AMOUNT_OF_KEYS. intros Hb.
  rewrite (bind_Some _ _ _ _ _ (altBase_in_range 1 s ltac:(unfold LOWEST_NOTE, HIGHEST_NOTE, AMOUNT_OF_KEYS; lia))).
  rewrite altBase_in_range
    by (unfold LOWEST_NOTE, HIGHEST_NOTE, AMOUNT_OF_KEYS; simpl; lia).
  unfold with_base. simpl. destruct s as [chs b st tr]. simpl. do 3 f_equal. lia.
Qed.

Lemma down_then_up (s : State) :
  1 <= base s < 96 - AMOUNT_OF_KEYS →
  (altBase (-1) ;; altBase 1) s = Some (tt, s).
Proof.
  unfold AMOUNT_OF_KEYS. intros Hb.
  rewrite (bind_Some _ _ _ _ _ (altBase_in_range (-1) s ltac:(unfold LOWEST_NOTE, HIGHEST_NOTE, AMOUNT_OF_KEYS; lia))).
  rewrite altBase_in_range
    by (unfold LOWEST_NOTE, HIGHEST_NOTE, AMOUNT_OF_KEYS; simpl; lia).
  unfold with_base. simpl. destruct s as [chs b st tr]. simpl. do 3 f_equal. lia.
Qed.

Lemma bind_assoc {A B C : Type} (m : UB A) (k : A → UB B) (h : B → UB C) (s : State) :
  bind (bind m k) h s = bind m (λ x, bind (k x) h) s.
Proof. unfold bind. now destruct (m s) as [[x s']|]. Qed.

(** C7 (amended). From a base note in [0, 96 - AMOUNT_OF_KEYS - 1), any
    number of repetitions of [altBase(1); altBase(-1)] gives back the state
    it started from; from a base note in [1, 96 - AMOUNT_OF_KEYS), so does
    any number of repetitions of [altBase(-1); altBase(1)]. *)
Theorem altBase_round_trip (n : nat) (s : State) :
  (0 <= base s < 96 - AMOUNT_OF_KEYS - 1 → upDown n s = Some (tt, s)) ∧
  (1 <= base s < 96 - AMOUNT_OF_KEYS → downUp n s = Some (tt, s)).
Proof.
  split; intros Hb; induction n as [|n IH]; try reflexivity.
  - cbn [upDown]. rewrite <- bind_assoc.
    now rewrite (bind_Some _ _ _ _ _ (up_then_down s Hb)).
  - cbn [downUp]. rewrite <- bind_assoc.
    now rewrite (bind_Some _ _ _ _ _ (down_then_up s Hb)).
Qed.

Lemma altBase_round_trip_witness :
  upDown 3 (with_base 91 fresh) = Some (tt, with_base 91 fresh) ∧
  downUp 3 (with_base 92 fresh) = Some (tt, with_base 92 fresh).
Proof.
  split.
  - apply (proj1 (altBase_round_trip 3 (with_base 91 fresh))).
    unfold AMOUNT_OF_KEYS. simpl. lia.
  - apply (proj2 (altBase_round_trip 3 (with_base 92 fresh))).
    unfold AMOUNT_OF_KEYS. simpl. lia.
Defined.

(** ** Loops *)

(** An invariant indexed by the loop counter is carried through [forLoop],
    and the loop returns when every iteration does. *)
Lemma forLoop_inv (P : nat → State → Prop) (body : nat → UB unit) (n i : nat) (s : State) :
  P i s →
  (∀ (j : nat) (t : State), (i ≤ j < i + n)%nat → P j t →
     ∃ t' : State, body j t = Some (tt, t') ∧ P (S j) t') →
  ∃ s' : State, forLoop i n body s = Some (tt, s') ∧ P (i + n)%nat s'.
Proof.
  revert i s. induction n as [|n IH]; intros i s HP Hbody.
  - exists s. split; [reflexivity|]. now rewrite Nat.add_0_r.
  - destruct (Hbody i s ltac:(lia) HP) as (t & Hrun & HP').
    cbn [forLoop]. rewrite (bind_Some _ _ _ _ _ Hrun).
    destruct (IH (S i) t HP') as (s' & Hrest & HP'').
    { intros j u Hj. apply Hbody. lia. }
    exists s'. split; [done|]. now replace (i + S n)%nat with (S i + n)%nat by lia.
Qed.

(** ** manageSettings *)

Lemma settingBody_effect (inp : Inputs) (i : nat) (old : Z) (s : State) :
  settings s !! i = Some old →
  ∃ printed : list Event,
    settingBody inp i s
      = Some (tt, mkState (channels s) (base s)
                          (<[i := accepted (analogRead inp (Z.of_nat i)) old]> (settings s))
                          (trace s ++ printed)).
Proof.
  intros Hold. unfold settingBody, accepted. cbv zeta.
  unfold bind at 1, readSetting. rewrite Hold.
  destruct (negb (old =? _) && negb (_ =? 0)).
  - eexists [_]. unfold bind, writeSetting, emit.
    destruct (decide (i < length (settings s))%nat) as [|Hge]; [reflexivity|].
    apply lookup_lt_Some in Hold. lia.
  - exists []. unfold ret. rewrite app_nil_r, list_insert_id by done. now destruct s.
Qed.

Lemma channelBody_effect (i : nat) (c : Channel) (s : State) :
  channels s !! i = Some c →
  length (settings s) = Z.to_nat AMOUNT_OF_SETTINGS →
  channelBody i s
    = Some (tt, mkState (channels s) (base s) (settings s)
                        (trace s ++ if playing c then [] else settingCalls (settings s) i)).
Proof.
  intros Hc Hlen. unfold channelBody. unfold bind at 1, readChannel. rewrite Hc.
  destruct (playing c); cbn [negb].
  - unfold ret. rewrite app_nil_r. now destruct s.
  - destruct s as [chs b st tr]. cbn in Hlen |- *.
    destruct st as [|v0 [|v1 [|v2 [|v3 [|v4 [|v5 st]]]]]]; try discriminate Hlen.
    cbn. unfold emit, settingCalls. cbn. now rewrite <- !app_assoc.
Qed.

(** The whole pass: the channel table and the base note are untouched, each
    setting holds its accepted value, and the driver calls of the idle
    channels come last in the output. *)
Lemma manageSettings_effect (inp : Inputs) (s : State) :
  well_sized s →
  ∃ (st' : list Z) (printed : list Event),
    manageSettings inp s
      = Some (tt, mkState (channels s) (base s) st'
                (trace s ++ printed ++
                 flat_map (λ i, match channels s !! i with
                                | Some c => if playing c then [] else settingCalls st' i
                                | None => []
                                end)
                          (seq 0 (Z.to_nat AMOUNT_OF_CHANNELS)))) ∧
    length st' = Z.to_nat AMOUNT_OF_SETTINGS ∧
    ∀ (i : nat) (old : Z), settings s !! i = Some old →
      st' !! i = Some (accepted (analogRead inp (Z.of_nat i)) old).
Proof.
  intros [Hchs Hst].
  (* first loop *)
  destruct (forLoop_inv
    (λ j t, channels t = channels s ∧ base t = base s ∧
            length (settings t) = Z.to_nat AMOUNT_OF_SETTINGS ∧
            (∃ printed, trace t = trace s ++ printed) ∧
            ∀ k old, settings s !! k = Some old →
              settings t !! k = Some (if decide (k < j)%nat
                                      then accepted (analogRead inp (Z.of_nat k)) old
                                      else old))
    (settingBody inp) (Z.to_nat AMOUNT_OF_SETTINGS) 0 s)
    as (s1 & Hrun1 & Hchs1 & Hbase1 & Hlen1 & [printed Htr1] & Hset1).
  { split_and!; try done. exists []. now rewrite app_nil_r. }
  { intros j t Hj (Hc & Hb & Hl & [pr Htr] & Hs).
    assert (is_Some (settings s !! j)) as [old Hold].
    { apply lookup_lt_is_Some_2. lia. }
    pose proof (Hs j old Hold) as Hj'. destruct (decide (j < j)%nat); [lia|].
    destruct (settingBody_effect inp j old t Hj') as [pr' ->].
    eexists. split; [reflexivity|]. cbn.
    split_and!; try done.
    - now rewrite length_insert.
    - exists (pr ++ pr'). now rewrite Htr, app_assoc.
    - intros k old' Hk. destruct (decide (k = j)) as [->|Hne].
      + rewrite list_lookup_insert_eq by lia.
        destruct (decide (j < S j)%nat); [congruence|lia].
      + rewrite list_lookup_insert_ne by done. rewrite (Hs k old' Hk).
        destruct (decide (k < j)%nat), (decide (k < S j)%nat); try done; lia. }
  (* second loop *)
  destruct (forLoop_inv
    (λ j t, channels t = channels s ∧ base t = base s ∧ settings t = settings s1 ∧
            trace t = trace s1 ++
              flat_map (λ i, match channels s !! i with
                             | Some c => if playing c then [] else settingCalls (settings s1) i
                             | None => []
                             end) (seq 0 j))
    channelBody (Z.to_nat AMOUNT_OF_CHANNELS) 0 s1)
    as (s2 & Hrun2 & Hchs2 & Hbase2 & Hset2 & Htr2).
  { split_and!; try done. cbn. now rewrite app_nil_r. }
  { intros j t Hj (Hc & Hb & Hs & Htr).
    assert (is_Some (channels s !! j)) as [c Hcj].
    { apply lookup_lt_is_Some_2. lia. }
    rewrite (channelBody_effect j c t) by congruence.
    eexists. split; [reflexivity|]. cbn [channels base settings trace].
    split_and!; try done.
    rewrite seq_S, flat_map_app, Htr, Hs. cbn [flat_map Nat.add].
    now rewrite Hcj, app_nil_r, <- app_assoc. }
  exists (settings s1), printed. split; [|split].
  - unfold manageSettings. rewrite (bind_Some _ _ _ _ _ Hrun1), Hrun2.
    destruct s2 as [chs2 b2 st2 tr2]. cbn in *. subst.
    now rewrite Htr1, <- app_assoc.
  - done.
  - intros i old Hi. rewrite (Hset1 i old Hi).
    destruct (decide (i < 0 + Z.to_nat AMOUNT_OF_SETTINGS)%nat) as [|Hge]; [done|].
    apply lookup_lt_Some in Hi. lia.
Qed.

(** C8. In a settings pass, with [analog] the sample of setting [i] as the
    sketch holds it (a byte), the stored value of setting [i] changes exactly
    when [analog / 64] differs from it and [analog] is not zero; a sample of
    zero never changes it.  A reading in 0..255 is held unchanged. *)
Theorem manageSettings_accepts (inp : Inputs) (i : nat) (old : Z) (s : State) :
  well_sized s →
  settings s !! i = Some old →
  let analog := to_byte (analogRead inp (Z.of_nat i)) in
  ∃ (s' : State) (new : Z),
    manageSettings inp s = Some (tt, s') ∧
    settings s' !! i = Some new ∧
    (new ≠ old ↔ analog / 64 ≠ old ∧ analog ≠ 0) ∧
    (analog = 0 → new = old) ∧
    (0 <= analogRead inp (Z.of_nat i) < 256 → analog = analogRead inp (Z.of_nat i)).
Proof.
  intros Hsize Hold analog.
  destruct (manageSettings_effect inp s Hsize) as (st' & printed & Hrun & _ & Hst').
  eexists _, _. split; [exact Hrun|]. split; [exact (Hst' i old Hold)|].
  assert (0 <= analog < 256) as Hbyte by (apply Z.mod_pos_bound; lia).
  assert (to_byte (analog ÷ 64) = analog / 64) as Hquot.
  { unfold to_byte. Z.to_euclidean_division_equations. lia. }
  unfold accepted. fold analog. cbv zeta. rewrite Hquot.
  split_and!.
  - destruct (Z.eqb_spec old (analog / 64)), (Z.eqb_spec analog 0); cbn; split; try lia.
    all: intros [? ?]; congruence.
  - intros ->. cbn. now rewrite andb_false_r.
  - intros Hraw. apply Z.mod_small. lia.
Qed.

Lemma manageSettings_accepts_witness :
  ∃ (s' : State) (new : Z),
    manageSettings (mkInputs (λ _, 200) (λ _ _, false)) fresh = Some (tt, s') ∧
    settings s' !! 1%nat = Some new ∧
    (new ≠ 10 ↔ 200 / 64 ≠ 10 ∧ 200 ≠ 0) ∧
    (200 = 0 → new = 10) ∧
    (0 <= 200 < 256 → 200 = 200).
Proof.
  apply (manageSettings_accepts (mkInputs (λ _, 200) (λ _ _, false)) 1 10 fresh).
  - split; reflexivity.
  - reflexivity.
Defined.

(** ** manageKeys: one iteration of the key loop *)

(** [getChannel] with the index of the channel it returns. *)
Lemma getChannel_cases (key : Z) (s : State) :
  length (channels s) = Z.to_nat AMOUNT_OF_CHANNELS →
  ∃ (i : nat) (c : Channel),
    getChannel key s = Some (c, s) ∧ channels s !! i = Some c ∧
    (bound_idle key c
     ∨ (no_channel (bound_idle key) (channels s) ∧ bound_idle NONE c ∧
        ∀ (j : nat) (c' : Channel), (j < i)%nat → channels s !! j = Some c' →
                                    ¬ bound_idle NONE c')
     ∨ (no_channel (bound_idle key) (channels s) ∧
        no_channel (bound_idle NONE) (channels s) ∧ i = 0%nat)).
Proof.
  intros Hlen.
  destruct (first_or_none (bound_idle key) (channels s)) as [[c Hc]|Hno].
  { pose proof (getChannel_bound key s c Hlen Hc) as Hget.
    destruct Hc as (i & Hi & Hb & _). exists i, c. split_and!; try done. now left. }
  destruct (first_or_none (bound_idle NONE) (channels s)) as [[c Hc]|Hfree].
  { pose proof (getChannel_free key s c Hlen Hno Hc) as Hget.
    destruct Hc as (i & Hi & Hb & Hmin). exists i, c. split_and!; try done.
    right; left. done. }
  assert (is_Some (channels s !! 0%nat)) as [c Hc].
  { apply lookup_lt_is_Some_2. rewrite Hlen. cbv. lia. }
  exists 0%nat, c. split_and!; try done; [now apply getChannel_fallback|].
  right; right. done.
Qed.

Lemma writePressedKey_effect (i : nat) (c : Channel) (v : Z) (s : State) :
  channels s !! i = Some c →
  writePressedKey (Z.of_nat i) v s
    = Some (tt, mkState (<[i := mkChannel (id c) v (playing c)]> (channels s))
                        (base s) (settings s) (trace s)).
Proof.
  intros Hc. unfold writePressedKey.
  destruct (decide (0 <= Z.of_nat i)) as [_|]; [|lia].
  rewrite Nat2Z.id. unfold bind, readChannel, writeChannel. rewrite Hc.
  destruct (decide (i < length (channels s))%nat) as [|Hge]; [done|].
  apply lookup_lt_Some in Hc. lia.
Qed.

(** [playNoteFromBase] always returns, and only adds to the output. *)
Lemma playNoteFromBase_effect (channel offset : Z) (s : State) :
  ∃ octive noteInScale : Z,
    playNoteFromBase channel offset s
      = Some (tt, mkState (channels s) (base s) (settings s)
                          (trace s ++ [PlayNote channel octive noteInScale])).
Proof.
  unfold playNoteFromBase, bind, readBase, emit. cbv zeta.
  eexists _, _. reflexivity.
Qed.

Lemma to_byte_index (i : nat) (l : list Channel) (c : Channel) :
  length l = Z.to_nat AMOUNT_OF_CHANNELS → l !! i = Some c →
  to_byte (Z.of_nat i) = Z.of_nat i.
Proof.
  intros Hlen Hc. apply lookup_lt_Some in Hc. apply Z.mod_small.
  unfold AMOUNT_OF_CHANNELS in Hlen. lia.
Qed.

(** The three outcomes of an iteration, given the channel [getChannel]
    returned and that its [id] is its index. *)
Lemma keyBody_press (inp : Inputs) (key : Z) (i : nat) (c : Channel) (s : State) :
  length (channels s) = Z.to_nat AMOUNT_OF_CHANNELS →
  getChannel key s = Some (c, s) →
  channels s !! i = Some c → id c = Z.of_nat i →
  digitalRead inp (key + FIRST_KEY_PIN) 0 = true → pressedKey c = NONE →
  ∃ s1 : State,
    playNoteFromBase (id c) key s = Some (tt, s1) ∧
    keyBody inp key s
      = Some (tt, mkState (<[i := mkChannel (id c) key (playing c)]> (channels s))
                          (base s) (settings s) (trace s1 ++ [PrintPressed key])).
Proof.
  intros Hlen Hget Hi Hid Hhigh Hfree.
  destruct (playNoteFromBase_effect (id c) key s) as (oct & note & Hplay).
  eexists. split; [exact Hplay|].
  unfold keyBody. rewrite (bind_Some _ _ _ _ _ Hget).
  rewrite Hhigh, Hfree, Z.eqb_refl. cbn [andb].
  rewrite Hid, (to_byte_index i _ c Hlen Hi), <- Hid.
  rewrite (bind_Some _ _ _ _ _ Hplay). rewrite Hid at 1.
  now rewrite (bind_Some _ _ _ _ _ (writePressedKey_effect i c key (mkState _ _ _ _) Hi)).
Qed.

Lemma keyBody_release (inp : Inputs) (key : Z) (i : nat) (c : Channel) (s : State) :
  getChannel key s = Some (c, s) →
  channels s !! i = Some c → id c = Z.of_nat i →
  digitalRead inp (key + FIRST_KEY_PIN) 0 && (pressedKey c =? NONE) = false →
  digitalRead inp (key + FIRST_KEY_PIN) 1 = false → pressedKey c = key →
  keyBody inp key s
    = Some (tt, mkState (<[i := mkChannel (id c) NONE (playing c)]> (channels s))
                        (base s) (settings s) (trace s ++ [PrintReleased key])).
Proof.
  intros Hget Hi Hid Hnopress Hlow Hkey.
  unfold keyBody. rewrite (bind_Some _ _ _ _ _ Hget).
  rewrite Hnopress, Hlow, Hkey, Z.eqb_refl. cbn [andb negb].
  pose proof (writePressedKey_effect i c NONE s Hi) as Hwrite.
  rewrite <- Hid in Hwrite. now rewrite (bind_Some _ _ _ _ _ Hwrite).
Qed.

Lemma keyBody_skip (inp : Inputs) (key : Z) (c : Channel) (s : State) :
  getChannel key s = Some (c, s) →
  digitalRead inp (key + FIRST_KEY_PIN) 0 && (pressedKey c =? NONE) = false →
  negb (digitalRead inp (key + FIRST_KEY_PIN) 1) && (pressedKey c =? key) = false →
  keyBody inp key s = Some (tt, s).
Proof.
  intros Hget Hnopress Hnorelease.
  unfold keyBody. rewrite (bind_Some _ _ _ _ _ Hget).
  now rewrite Hnopress, Hnorelease.
Qed.

(** On a table with no playing channel, [getChannel] finds the channel that
    holds the key, else the first free one, else [channels[0]]. *)
Lemma getChannel_idle (key : Z) (s : State) :
  table_ok s →
  ∃ (i : nat) (c : Channel),
    getChannel key s = Some (c, s) ∧ channels s !! i = Some c ∧
    id c = Z.of_nat i ∧ playing c = false ∧
    (pressedKey c = key
     ∨ (¬ key_bound key s ∧ pressedKey c = NONE ∧
        ∀ (j : nat) (c' : Channel), (j < i)%nat → channels s !! j = Some c' →
                                    pressedKey c' ≠ NONE)
     ∨ (¬ key_bound key s ∧ ¬ key_bound NONE s)).
Proof.
  intros ([Hlen _] & Hids & Hidle).
  assert (∀ k, no_channel (bound_idle k) (channels s) → ¬ key_bound k s) as Hnone.
  { intros k Hno (j & c' & Hj & Hk). apply (Hno j c' Hj). split; [done|]. eauto. }
  destruct (getChannel_cases key s Hlen) as (i & c & Hget & Hi & Hcases).
  exists i, c. split_and!; eauto.
  destruct Hcases as [[Hkey _]|[(Hno & [Hfree _] & Hmin)|(Hno & Hfree & _)]].
  - now left.
  - right; left. split_and!; eauto.
    intros j c' Hj Hc' Hk. apply (Hmin j c' Hj Hc'). split; [done|]. eauto.
  - right; right. eauto.
Qed.

(** Writing [pressedKey] of one channel keeps the invariant when the new
    value is [NONE] or a key of the sketch that no channel holds. *)
Lemma write_invariant (i : nat) (c : Channel) (v b : Z) (tr : list Event) (s : State) :
  invariant s →
  channels s !! i = Some c →
  v = NONE ∨ (0 <= v < AMOUNT_OF_KEYS ∧ ¬ key_bound v s) →
  invariant (mkState (<[i := mkChannel (id c) v (playing c)]> (channels s))
                     b (settings s) tr).
Proof.
  intros (([Hlen Hst] & Hids & Hidle) & Huniq & Hkeys) Hi Hv.
  assert (i < length (channels s))%nat as Hlt by now apply lookup_lt_Some in Hi.
  assert (∀ j cj,
            <[i := mkChannel (id c) v (playing c)]> (channels s) !! j = Some cj →
            (j = i ∧ cj = mkChannel (id c) v (playing c)) ∨
            (j ≠ i ∧ channels s !! j = Some cj)) as Hlook.
  { intros j cj. destruct (decide (j = i)) as [->|Hne].
    - rewrite list_lookup_insert_eq by done. intros [= <-]. now left.
    - rewrite list_lookup_insert_ne by done. now right. }
  split; [split_and!|split]; cbn [channels settings].
  - split; cbn [channels settings]; [now rewrite length_insert|done].
  - intros j cj Hj. destruct (Hlook j cj Hj) as [[-> ->]|[_ Hold]]; cbn; eauto.
  - intros j cj Hj. destruct (Hlook j cj Hj) as [[-> ->]|[_ Hold]]; cbn; eauto.
  - intros k a a' ca ca' Hk Ha Ha' Hka Hka'. cbn [channels] in Ha, Ha'.
    destruct (Hlook a ca Ha) as [[-> ->]|[Hne Hold]],
             (Hlook a' ca' Ha') as [[-> ->]|[Hne' Hold']]; cbn in *.
    + done.
    + destruct Hv as [->|[_ Hv]]; [congruence|]. destruct Hv. exists a', ca'. split; congruence.
    + destruct Hv as [->|[_ Hv]]; [congruence|]. destruct Hv. exists a, ca. split; congruence.
    + now apply (Huniq k a a' ca ca').
  - intros j cj Hj. cbn [channels] in Hj.
    destruct (Hlook j cj Hj) as [[-> ->]|[_ Hold]]; cbn; [tauto|eauto].
Qed.

(** An iteration of the key loop returns and keeps the invariant. *)
Lemma keyBody_invariant (inp : Inputs) (key : Z) (s : State) :
  invariant s → 0 <= key < AMOUNT_OF_KEYS →
  ∃ s' : State, keyBody inp key s = Some (tt, s') ∧ invariant s' ∧ base s' = base s.
Proof.
  intros Hinv Hrange. pose proof Hinv as [Hok Huniq]. pose proof Hok as ([Hlen _] & _).
  assert (key ≠ NONE) as Hkey by (unfold NONE; lia).
  destruct (getChannel_idle key s Hok) as (i & c & Hget & Hi & Hid & Hidle & Hcases).
  destruct Hcases as [Hc|[(Hunbound & Hc & _)|(Hunbound & Hfull)]].
  - (* the key holds channel [i] *)
    assert (digitalRead inp (key + FIRST_KEY_PIN) 0 && (pressedKey c =? NONE) = false) as Hnopress.
    { rewrite Hc. destruct (Z.eqb_spec key NONE); [done|]. apply andb_false_r. }
    destruct (digitalRead inp (key + FIRST_KEY_PIN) 1) eqn:Hread.
    + exists s. split_and!; try done. apply (keyBody_skip inp key c); try done.
      now rewrite Hread.
    + eexists. split; [now apply (keyBody_release inp key i c)|].
      split; [|done]. apply write_invariant; auto.
  - (* the key is not held, channel [i] is free *)
    destruct (digitalRead inp (key + FIRST_KEY_PIN) 0) eqn:Hread.
    + destruct (keyBody_press inp key i c s Hlen Hget Hi Hid Hread Hc) as (s1 & _ & ->).
      eexists. split; [reflexivity|]. split; [|done]. apply write_invariant; auto.
    + exists s. split_and!; try done. apply (keyBody_skip inp key c); try done.
      * now rewrite Hread.
      * rewrite Hc. destruct (Z.eqb_spec NONE key); [congruence|]. apply andb_false_r.
  - (* no channel holds the key and none is free *)
    assert (pressedKey c ≠ NONE) as Hc1.
    { intros Hc. apply Hfull. now exists i, c. }
    assert (pressedKey c ≠ key) as Hc2.
    { intros Hc. apply Hunbound. now exists i, c. }
    exists s. split_and!; try done. apply (keyBody_skip inp key c); try done.
    + destruct (Z.eqb_spec (pressedKey c) NONE); [done|]. apply andb_false_r.
    + destruct (Z.eqb_spec (pressedKey c) key); [done|]. apply andb_false_r.
Qed.

(** ** The invariant along an execution *)

Lemma table_of_lookup (keys : list Z) (i : nat) (c : Channel) :
  table_of keys !! i = Some c ↔
  ∃ k : Z, keys !! i = Some k ∧ c = mkChannel (Z.of_nat i) k false.
Proof.
  unfold table_of. rewrite list_lookup_imap.
  destruct (keys !! i) as [k|]; cbn; split.
  - intros [= <-]. now exists k.
  - now intros (k' & [= <-] & ->).
  - discriminate.
  - now intros (k' & [=] & _).
Qed.

(** A table built by [table_of] has its ids in order and nothing playing. *)
Lemma table_of_ok (keys : list Z) (b : Z) (st : list Z) (tr : list Event) :
  length keys = Z.to_nat AMOUNT_OF_CHANNELS →
  length st = Z.to_nat AMOUNT_OF_SETTINGS →
  table_ok (mkState (table_of keys) b st tr).
Proof.
  intros Hkeys Hst. split_and!.
  - split; [|done]. cbn. unfold table_of. now rewrite length_imap.
  - intros i c Hi. apply table_of_lookup in Hi as (k & _ & ->). done.
  - intros i c Hi. apply table_of_lookup in Hi as (k & _ & ->). done.
Qed.

(** The table that [setup] builds satisfies the invariant. *)
Lemma fresh_table_invariant (b : Z) (st : list Z) (tr : list Event) :
  length st = Z.to_nat AMOUNT_OF_SETTINGS →
  invariant (mkState (channels fresh) b st tr).
Proof.
  intros Hst.
  assert (∀ i c, channels fresh !! i = Some c → pressedKey c = NONE) as Hfree.
  { intros i c Hi. apply table_of_lookup in Hi as (k & Hi & ->). cbn.
    do 8 (destruct i as [|i]; [cbn in Hi; congruence|]). discriminate Hi. }
  split; [now apply table_of_ok|]. split.
  - intros k i j ci cj Hk Hi Hj Hki _. apply Hfree in Hi. congruence.
  - intros i c Hi. left. now apply (Hfree i).
Qed.

Lemma setup_invariant (boot : Inputs) :
  ∃ s : State, setup boot power_on = Some (tt, s) ∧ invariant s.
Proof.
  destruct (manageSettings_effect boot (mkState (channels power_on) (base power_on)
              (settings power_on) (trace power_on ++ [OplInit] ++ [SerialBegin 9600])))
    as (st' & printed & Hrun & Hlen & _); [split; reflexivity|].
  unfold setup. unfold bind at 1. cbn [emit]. unfold bind at 1. cbn [emit].
  cbn [channels base settings trace]. rewrite <- app_assoc.
  rewrite (bind_Some _ _ _ _ _ Hrun).
  eexists. split; [vm_compute; reflexivity|]. now apply fresh_table_invariant.
Qed.

Lemma manageSettings_invariant (inp : Inputs) (s : State) :
  invariant s →
  ∃ s' : State, manageSettings inp s = Some (tt, s') ∧ invariant s' ∧
                channels s' = channels s ∧ base s' = base s.
Proof.
  intros (([Hlen Hst] & Hids & Hidle) & Huniq & Hkeys).
  destruct (manageSettings_effect inp s) as (st' & printed & Hrun & Hlen' & _); [done|].
  eexists. split; [exact Hrun|]. now split_and!.
Qed.

Lemma altBase_invariant (alt : Z) (s : State) :
  invariant s →
  ∃ s' : State, altBase alt s = Some (tt, s') ∧ invariant s'.
Proof.
  intros Hinv. unfold altBase, bind, readBase.
  destruct (_ && _); eexists; (split; [reflexivity|done]).
Qed.

Lemma step_invariant (s s' : State) : invariant s → step s s' → invariant s'.
Proof.
  intros Hinv Hstep. destruct Hstep as [inp s s' Hrun|inp key s s' Hkey Hrun|s s' Hrun|s s' Hrun].
  - destruct (manageSettings_invariant inp s Hinv) as (t & Ht & Hinv' & _). congruence.
  - destruct (keyBody_invariant inp key s Hinv Hkey) as (t & Ht & Hinv' & _).
    congruence.
  - destruct (altBase_invariant (-1) s Hinv) as (t & Ht & Hinv'). congruence.
  - destruct (altBase_invariant 1 s Hinv) as (t & Ht & Hinv'). congruence.
Qed.

Lemma reachable_invariant (s : State) : reachable s → invariant s.
Proof.
  induction 1 as [boot s Hboot|s s' _ IH Hstep].
  - destruct (setup_invariant boot) as (t & Ht & Hinv). congruence.
  - exact (step_invariant s s' IH Hstep).
Qed.

(** Every pass of [loop] returns, and is made of steps. *)
Lemma loop_reachable (inp : Inputs) (s : State) :
  reachable s → ∃ s' : State, loop inp s = Some (tt, s') ∧ reachable s'.
Proof.
  intros Hs. unfold loop, manageKeys.
  destruct (manageSettings_invariant inp s (reachable_invariant s Hs)) as (s1 & Hrun1 & _).
  assert (reachable s1) as Hs1 by (eapply reach_step, step_settings; eauto).
  rewrite (bind_Some _ _ _ _ _ Hrun1).
  destruct (forLoop_inv (λ _ t, reachable t) (λ key, keyBody inp (Z.of_nat key))
              (Z.to_nat AMOUNT_OF_KEYS) 0 s1 Hs1) as (s2 & Hrun2 & Hs2).
  { intros j t Hj Ht.
    destruct (keyBody_invariant inp (Z.of_nat j) t (reachable_invariant t Ht))
      as (t' & Hrun & _); [lia|].
    exists t'. split; [done|]. eapply reach_step, step_key; eauto. lia. }
  rewrite (bind_Some _ _ _ _ _ Hrun2).
  assert (∃ s3, (if digitalRead inp MOVE_DOWN_1_PIN 0 then altBase (-1) else ret tt) s2
                = Some (tt, s3) ∧ reachable s3) as (s3 & Hrun3 & Hs3).
  { destruct (digitalRead inp MOVE_DOWN_1_PIN 0); [|now exists s2].
    destruct (altBase_invariant (-1) s2 (reachable_invariant s2 Hs2)) as (s3 & Hrun & _).
    exists s3. split; [done|]. eapply reach_step, step_down; eauto. }
  rewrite (bind_Some _ _ _ _ _ Hrun3).
  destruct (digitalRead inp MOVE_UP_1_PIN 0); [|now exists s3].
  destruct (altBase_invariant 1 s3 (reachable_invariant s3 Hs3)) as (s4 & Hrun & _).
  exists s4. split; [done|]. eapply reach_step, step_up; eauto.
Qed.

Lemma loops_reachable (ticks : list Inputs) (s : State) :
  reachable s → ∃ s' : State, loops ticks s = Some (tt, s') ∧ reachable s'.
Proof.
  revert s. induction ticks as [|inp rest IH]; intros s Hs; [now exists s|].
  destruct (loop_reachable inp s Hs) as (s1 & Hrun & Hs1).
  cbn [loops]. rewrite (bind_Some _ _ _ _ _ Hrun). now apply IH.
Qed.

(** The sketch never indexes out of bounds: [setup] and any number of
    passes of [loop] return, in a reachable state. *)
Lemma run_reachable (boot : Inputs) (ticks : list Inputs) :
  ∃ s : State, run boot ticks power_on = Some (tt, s) ∧ reachable s.
Proof.
  destruct (setup_invariant boot) as (s0 & Hboot & _).
  unfold run. rewrite (bind_Some _ _ _ _ _ Hboot).
  apply loops_reachable. now apply (reach_setup boot).
Qed.

(** With three keys and eight channels the table never fills up: at every
    point of an execution some channel is free. *)
Lemma reachable_free_channel (s : State) : reachable s → key_bound NONE s.
Proof.
  intros Hs. destruct (reachable_invariant s Hs) as (([Hlen _] & _) & Huniq & Hkeys).
  assert (∀ i, (i < 4)%nat → is_Some (channels s !! i)) as Hsome.
  { intros i Hi. apply lookup_lt_is_Some_2. rewrite Hlen. unfold AMOUNT_OF_CHANNELS. lia. }
  destruct (Hsome 0%nat ltac:(lia)) as [c0 H0], (Hsome 1%nat ltac:(lia)) as [c1 H1],
           (Hsome 2%nat ltac:(lia)) as [c2 H2], (Hsome 3%nat ltac:(lia)) as [c3 H3].
  assert (∀ i j ci cj, channels s !! i = Some ci → channels s !! j = Some cj →
            i ≠ j → pressedKey ci ≠ NONE → pressedKey ci ≠ pressedKey cj) as Hdiff.
  { intros i j ci cj Hi Hj Hij Hne Heq. apply Hij.
    now apply (Huniq (pressedKey ci) i j ci cj). }
  destruct (decide (pressedKey c0 = NONE)); [now exists 0%nat, c0|].
  destruct (decide (pressedKey c1 = NONE)); [now exists 1%nat, c1|].
  destruct (decide (pressedKey c2 = NONE)); [now exists 2%nat, c2|].
  destruct (decide (pressedKey c3 = NONE)); [now exists 3%nat, c3|].
  exfalso.
  pose proof (Hkeys _ _ H0). pose proof (Hkeys _ _ H1).
  pose proof (Hkeys _ _ H2). pose proof (Hkeys _ _ H3).
  assert (pressedKey c0 ≠ pressedKey c1) by (apply (Hdiff 0 1 c0 c1)%nat; done).
  assert (pressedKey c0 ≠ pressedKey c2) by (apply (Hdiff 0 2 c0 c2)%nat; done).
  assert (pressedKey c0 ≠ pressedKey c3) by (apply (Hdiff 0 3 c0 c3)%nat; done).
  assert (pressedKey c1 ≠ pressedKey c2) by (apply (Hdiff 1 2 c1 c2)%nat; done).
  assert (pressedKey c1 ≠ pressedKey c3) by (apply (Hdiff 1 3 c1 c3)%nat; done).
  assert (pressedKey c2 ≠ pressedKey c3) by (apply (Hdiff 2 3 c2 c3)%nat; done).
  clear Hdiff Huniq Hkeys Hsome Hs Hlen H0 H1 H2 H3.
  unfold AMOUNT_OF_KEYS, NONE in *. lia.
Qed.

(** ** The key scan *)

(** C2. At every point of an execution ([setup], then settings passes,
    iterations of the key loop and moves of the base note, which is what the
    passes of [loop] are made of, see [run_reachable]), no two distinct
    channels hold the same key. *)
Theorem one_channel_per_key_reachable
    (s : State) (k : Z) (i j : nat) (ci cj : Channel) :
  reachable s →
  k ≠ NONE →
  channels s !! i = Some ci → channels s !! j = Some cj →
  pressedKey ci = k → pressedKey cj = k →
  i = j.
Proof.
  intros Hs. destruct (reachable_invariant s Hs) as (_ & Huniq & _). apply Huniq.
Qed.

Lemma held_reachable : reachable held.
Proof.
  apply (reach_step booted held).
  - apply (reach_setup quiet). vm_compute. reflexivity.
  - apply (step_key (press 0) 0); [unfold AMOUNT_OF_KEYS; lia|vm_compute; reflexivity].
Defined.

Lemma one_channel_per_key_reachable_witness :
  reachable held ∧ 0 ≠ NONE ∧
  channels held !! 0%nat = Some (mkChannel 0 0 false) ∧
  pressedKey (mkChannel 0 0 false) = 0 ∧
  0%nat = 0%nat.
Proof.
  split; [exact held_reachable|]. split; [discriminate|].
  split; [reflexivity|]. split; [reflexivity|].
  apply (one_channel_per_key_reachable held 0 0 0 (mkChannel 0 0 false) (mkChannel 0 0 false));
    try reflexivity; [exact held_reachable|discriminate].
Defined.

(** C3 fails as stated.  A press does not set [playing]: on the table that [setup]
    builds, the iteration for key 0 with the key pressed binds channel 0 and
    leaves its [playing] flag [false]. *)
Lemma press_leaves_playing_false :
  ¬ (∀ (inp : Inputs) (key : Z) (c : Channel) (s : State),
       well_sized s → ids_ok s →
       getChannel key s = Some (c, s) →
       digitalRead inp (key + FIRST_KEY_PIN) 0 = true → pressedKey c = NONE →
       ∃ (s' : State) (c' : Channel),
         keyBody inp key s = Some (tt, s') ∧
         channels s' !! Z.to_nat (id c) = Some c' ∧
         pressedKey c' = key ∧ playing c' = true).
Proof.
  intros Hclaim.
  destruct (Hclaim (press 0) 0 (mkChannel 0 NONE false) fresh)
    as (s' & c' & Hrun & Hc' & _ & Hplaying); try reflexivity.
  - split; reflexivity.
  - apply (table_of_ok [NONE; NONE; NONE; NONE; NONE; NONE; NONE; NONE]); reflexivity.
  - vm_compute in Hrun. injection Hrun as <-.
    vm_compute in Hc'. injection Hc' as <-. discriminate Hplaying.
Qed.

(** C3 (amended). On a press edge for [key] (the first read of the key's
    pin is high and the channel [c] that [getChannel] returned is free), the
    iteration calls [playNoteFromBase(c.id, key)], then sets
    [channels[c.id].pressedKey] to [key], [c.id] being the index of [c], and
    reports the press; the [playing] flag of the channel is left as it
    was. *)
Theorem keyBody_press_edge (inp : Inputs) (key : Z) (c : Channel) (s : State) :
  well_sized s → ids_ok s →
  getChannel key s = Some (c, s) →
  digitalRead inp (key + FIRST_KEY_PIN) 0 = true → pressedKey c = NONE →
  ∃ (i : nat) (s1 s' : State),
    id c = Z.of_nat i ∧ channels s !! i = Some c ∧
    playNoteFromBase (id c) key s = Some (tt, s1) ∧
    keyBody inp key s = Some (tt, s') ∧
    channels s' = <[i := mkChannel (id c) key (playing c)]> (channels s) ∧
    base s' = base s ∧ settings s' = settings s ∧
    trace s' = trace s1 ++ [PrintPressed key].
Proof.
  intros [Hlen _] Hids Hget Hhigh Hfree.
  destruct (getChannel_cases key s Hlen) as (i & c' & Hget' & Hi & _).
  assert (c' = c) as -> by congruence.
  destruct (keyBody_press inp key i c s Hlen Hget Hi (Hids i c Hi) Hhigh Hfree)
    as (s1 & Hplay & Hrun).
  exists i, s1. eexists. split_and!; eauto.
Qed.

Lemma keyBody_press_edge_witness :
  ∃ (i : nat) (s1 s' : State),
    0 = Z.of_nat i ∧ channels fresh !! i = Some (mkChannel 0 NONE false) ∧
    playNoteFromBase 0 0 fresh = Some (tt, s1) ∧
    keyBody (press 0) 0 fresh = Some (tt, s') ∧
    channels s' = <[i := mkChannel 0 0 false]> (channels fresh) ∧
    base s' = base fresh ∧ settings s' = settings fresh ∧
    trace s' = trace s1 ++ [PrintPressed 0].
Proof.
  apply (keyBody_press_edge (press 0) 0 (mkChannel 0 NONE false) fresh).
  - split; reflexivity.
  - intros i c Hi. do 8 (destruct i as [|i]; [injection Hi as <-; reflexivity|]).
    discriminate Hi.
  - reflexivity.
  - reflexivity.
  - reflexivity.
Defined.

Lemma exhausted_ok : table_ok exhausted.
Proof. apply (table_of_ok [10; 11; 12; 13; 14; 15; 16; 17]); reflexivity. Qed.

Lemma exhausted_unbound (k : Z) : k < 10 → ¬ key_bound k exhausted.
Proof.
  intros Hk (i & c & Hi & Hc).
  apply table_of_lookup in Hi as (k' & Hi & ->). cbn in Hc. subst k'.
  do 8 (destruct i as [|i]; [injection Hi as <-; lia|]). discriminate Hi.
Qed.

(** C4 fails as stated.  A key read high that no channel holds is not
    always bound; on a full table it is not: with eight channels held by other keys,
    [getChannel] falls back to [channels[0]], which is not free, and the
    iteration does nothing. *)
Lemma full_table_no_binding :
  ¬ (∀ (inp : Inputs) (key : Z) (s : State),
       table_ok s → 0 <= key < 256 →
       digitalRead inp (key + FIRST_KEY_PIN) 0 = true →
       digitalRead inp (key + FIRST_KEY_PIN) 1 = true →
       ¬ key_bound key s →
       ∃ s' : State, keyBody inp key s = Some (tt, s') ∧ key_bound key s').
Proof.
  intros Hclaim.
  destruct (Hclaim (press 0) 0 exhausted) as (s' & Hrun & Hbound).
  - exact exhausted_ok.
  - lia.
  - reflexivity.
  - reflexivity.
  - apply exhausted_unbound. lia.
  - vm_compute in Hrun. injection Hrun as <-.
    revert Hbound. apply (exhausted_unbound 0). lia.
Qed.

(** C4 (amended). On a table where no channel is playing, for a key whose
    pin reads high at both reads of the iteration: when no channel holds the
    key and some channel is free, the iteration binds the first free channel
    to the key and plays the note; in every other case (the key is already
    held, or no channel is free) it changes nothing.  At every point of an
    execution of the sketch some channel is free. *)
Theorem keyBody_high (inp : Inputs) (key : Z) (s : State) :
  table_ok s → 0 <= key < 256 →
  digitalRead inp (key + FIRST_KEY_PIN) 0 = true →
  digitalRead inp (key + FIRST_KEY_PIN) 1 = true →
  (¬ key_bound key s ∧ key_bound NONE s →
   ∃ (i : nat) (c : Channel) (s1 : State),
     channels s !! i = Some c ∧ pressedKey c = NONE ∧
     (∀ (j : nat) (c' : Channel), (j < i)%nat → channels s !! j = Some c' →
                                  pressedKey c' ≠ NONE) ∧
     playNoteFromBase (Z.of_nat i) key s = Some (tt, s1) ∧
     keyBody inp key s
       = Some (tt, mkState (<[i := mkChannel (Z.of_nat i) key false]> (channels s))
                           (base s) (settings s) (trace s1 ++ [PrintPressed key]))) ∧
  (¬ (¬ key_bound key s ∧ key_bound NONE s) →
   keyBody inp key s = Some (tt, s)) ∧
  (reachable s → key_bound NONE s).
Proof.
  intros Hok Hkey Hread0 Hread1. pose proof Hok as ([Hlen _] & _).
  assert (key ≠ NONE) as Hne by (unfold NONE; lia).
  apply and_assoc. split; [|apply reachable_free_channel].
  destruct (getChannel_idle key s Hok) as (i & c & Hget & Hi & Hid & Hidle & Hcases).
  destruct Hcases as [Hc|[(Hunbound & Hc & Hmin)|(Hunbound & Hfull)]].
  - (* the key is held *)
    split; [intros [Hunbound _]; destruct Hunbound; now exists i, c|].
    intros _. apply (keyBody_skip inp key c); [done| |now rewrite Hread1].
    rewrite Hc. destruct (Z.eqb_spec key NONE); [done|]. apply andb_false_r.
  - (* the key is not held and channel [i] is the first free one *)
    split; [intros _|intros []; split; [done|now exists i, c]].
    destruct (keyBody_press inp key i c s Hlen Hget Hi Hid Hread0 Hc) as (s1 & Hplay & Hrun).
    exists i, c, s1. rewrite Hid, Hidle in *. now split_and!.
  - (* no channel is free *)
    split; [now intros [_ Hfree]|]. intros _.
    assert (pressedKey c ≠ NONE) as Hc1.
    { intros Hc. apply Hfull. now exists i, c. }
    apply (keyBody_skip inp key c); [done| |now rewrite Hread1].
    destruct (Z.eqb_spec (pressedKey c) NONE); [done|]. apply andb_false_r.
Qed.

Lemma keyBody_high_witness :
  (∃ (i : nat) (c : Channel) (s1 : State),
     channels held !! i = Some c ∧ pressedKey c = NONE ∧
     (∀ (j : nat) (c' : Channel), (j < i)%nat → channels held !! j = Some c' →
                                  pressedKey c' ≠ NONE) ∧
     playNoteFromBase (Z.of_nat i) 1 held = Some (tt, s1) ∧
     keyBody (press 1) 1 held
       = Some (tt, mkState (<[i := mkChannel (Z.of_nat i) 1 false]> (channels held))
                           (base held) (settings held) (trace s1 ++ [PrintPressed 1]))) ∧
  keyBody (press 0) 0 held = Some (tt, held) ∧
  key_bound NONE held.
Proof.
  assert (table_ok held) as Hok.
  { apply (table_of_ok [0; NONE; NONE; NONE; NONE; NONE; NONE; NONE]); reflexivity. }
  split; [|split].
  - apply (proj1 (keyBody_high (press 1) 1 held Hok ltac:(lia) eq_refl eq_refl)).
    split.
    + intros (i & c & Hi & Hc).
      apply (table_of_lookup [0; NONE; NONE; NONE; NONE; NONE; NONE; NONE]) in Hi
        as (k & Hi & ->).
      cbn in Hc. subst k.
      do 8 (destruct i as [|i]; [injection Hi; discriminate|]). discriminate Hi.
    + exists 1%nat, (mkChannel 1 NONE false). split; reflexivity.
  - apply (proj1 (proj2 (keyBody_high (press 0) 0 held Hok ltac:(lia) eq_refl eq_refl))).
    intros [Hunbound _]. apply Hunbound.
    exists 0%nat, (mkChannel 0 0 false). split; reflexivity.
  - apply (proj2 (proj2 (keyBody_high (press 0) 0 held Hok ltac:(lia) eq_refl eq_refl))).
    exact held_reachable.
Defined.

(** ** The playing flag *)

Lemma idle_calls (st : list Z) (l : list Channel) (idx : list nat) :
  (∀ (i : nat) (c : Channel), l !! i = Some c → playing c = false) →
  Forall (λ i, is_Some (l !! i)) idx →
  flat_map (λ i, match l !! i with
                 | Some c => if playing c then [] else settingCalls st i
                 | None => []
                 end) idx
  = flat_map (settingCalls st) idx.
Proof.
  intros Hidle Hidx. induction Hidx as [|i idx [c Hc] _ IH]; [done|].
  cbn [flat_map]. now rewrite IH, Hc, (Hidle i c Hc).
Qed.

(** C10. At every point of an execution the [playing] flag of every channel
    is [false]: nothing sets it after [setup].  So the test [!playing] in
    [getChannel] always passes (the scan condition is [pressedKey == key]
    alone), and every settings pass returns, leaves the flags [false], and
    ends with the seven driver calls for each of the channels 0 to 7. *)
Theorem playing_stays_false (s : State) :
  reachable s →
  all_idle s ∧
  (∀ (key : Z) (i : nat) (c : Channel),
     channels s !! i = Some c → holdsKey key c = (pressedKey c =? key)) ∧
  (∀ inp : Inputs,
     ∃ (s' : State) (printed : list Event),
       manageSettings inp s = Some (tt, s') ∧ all_idle s' ∧
       trace s' = trace s ++ printed ++
                  flat_map (settingCalls (settings s'))
                           (seq 0 (Z.to_nat AMOUNT_OF_CHANNELS))).
Proof.
  intros Hs. destruct (reachable_invariant s Hs) as [(Hsize & _ & Hidle) _].
  split_and!.
  - exact Hidle.
  - intros key i c Hi. unfold holdsKey. rewrite (Hidle i c Hi). apply andb_true_r.
  - intros inp.
    destruct (manageSettings_effect inp s Hsize) as (st' & printed & Hrun & _).
    eexists _, printed. split; [exact Hrun|]. split; [exact Hidle|].
    cbn [trace settings]. rewrite idle_calls; [done|exact Hidle|].
    apply Forall_forall. intros i Hi%elem_of_seq.
    apply lookup_lt_is_Some_2. destruct Hsize as [-> _]. lia.
Qed.

Lemma playing_stays_false_witness :
  all_idle held ∧
  (∀ (key : Z) (i : nat) (c : Channel),
     channels held !! i = Some c → holdsKey key c = (pressedKey c =? key)) ∧
  (∀ inp : Inputs,
     ∃ (s' : State) (printed : list Event),
       manageSettings inp held = Some (tt, s') ∧ all_idle s' ∧
       trace s' = trace held ++ printed ++
                  flat_map (settingCalls (settings s'))
                           (seq 0 (Z.to_nat AMOUNT_OF_CHANNELS))).
Proof. apply (playing_stays_false held). exact held_reachable. Defined.

(** * Further properties of the sketch *)

(** ** Notes *)

(** The note arithmetic on any pair of bytes: the sum wraps at 256. *)
Lemma playNoteFromBase_wraps (channel offset : Z) (s : State) :
  ∃ octive noteInScale : Z,
    playNoteFromBase channel offset s
      = Some (tt, mkState (channels s) (base s) (settings s)
                          (trace s ++ [PlayNote channel octive noteInScale])) ∧
    octive * 12 + noteInScale = to_byte (base s + offset) ∧
    0 <= noteInScale < 12 ∧ 0 <= octive <= 21.
Proof.
  unfold playNoteFromBase, bind, readBase, emit. cbv zeta.
  eexists _, _. split; [reflexivity|].
  unfold to_byte. Z.to_euclidean_division_equations. lia.
Qed.

(** X8. For any base note and offset, [playNoteFromBase] plays the note of
    the sum taken modulo 256 (the sum is stored in a byte): the octave and
    note satisfy [octave * 12 + note = (base + offset) mod 256], with the
    note in 0..11 and the octave in 0..21; the state is otherwise
    unchanged. *)
Theorem playNoteFromBase_byte_wrap (channel offset : Z) (s : State) :
  ∃ octive noteInScale : Z,
    playNoteFromBase channel offset s
      = Some (tt, mkState (channels s) (base s) (settings s)
                          (trace s ++ [PlayNote channel octive noteInScale])) ∧
    octive * 12 + noteInScale = (base s + offset) mod 256 ∧
    0 <= noteInScale < 12 ∧ 0 <= octive <= 21.
Proof. exact (playNoteFromBase_wraps channel offset s). Qed.

Example note_past_the_byte : 
  playNoteFromBase 0 10 (with_base 250 fresh)
  = Some (tt, mkState (channels fresh) 250 (settings fresh) [PlayNote 0 0 4]).
Proof. reflexivity. Qed.

(** ** One iteration of the key loop, on a table with nothing playing *)

(** What an iteration can do: nothing, free the channel of the key, or bind
    a free channel to a key that no channel holds and play its note. *)
Lemma keyBody_outcome (inp : Inputs) (key : Z) (s : State) :
  table_ok s → key ≠ NONE →
  ∃ s' : State,
    keyBody inp key s = Some (tt, s') ∧ base s' = base s ∧ settings s' = settings s ∧
    ((s' = s ∧
       (key_bound key s → digitalRead inp (key + FIRST_KEY_PIN) 1 = true) ∧
       (¬ key_bound key s →
        digitalRead inp (key + FIRST_KEY_PIN) 0 = false ∨ ¬ key_bound NONE s))
     ∨ (∃ (i : nat) (c : Channel),
          channels s !! i = Some c ∧ pressedKey c = key ∧
          digitalRead inp (key + FIRST_KEY_PIN) 1 = false ∧
          channels s' = <[i := mkChannel (Z.of_nat i) NONE false]> (channels s) ∧
          trace s' = trace s ++ [PrintReleased key])
     ∨ (∃ (i : nat) (c : Channel) (octive noteInScale : Z),
          channels s !! i = Some c ∧ pressedKey c = NONE ∧ ¬ key_bound key s ∧
          digitalRead inp (key + FIRST_KEY_PIN) 0 = true ∧
          channels s' = <[i := mkChannel (Z.of_nat i) key false]> (channels s) ∧
          trace s' = trace s ++ [PlayNote (Z.of_nat i) octive noteInScale; PrintPressed key] ∧
          octive * 12 + noteInScale = to_byte (base s + key) ∧
          0 <= noteInScale < 12 ∧ 0 <= octive <= 21)).
Proof.
  intros Hok Hkey. pose proof Hok as ([Hlen _] & _).
  destruct (getChannel_idle key s Hok) as (i & c & Hget & Hi & Hid & Hidle & Hcases).
  destruct (digitalRead inp (key + FIRST_KEY_PIN) 0 && (pressedKey c =? NONE)) eqn:Hpress.
  - (* press *)
    apply andb_true_iff in Hpress as [Hread Hfree%Z.eqb_eq].
    destruct Hcases as [Hc|[(Hunbound & _)|(_ & Hfull)]];
      [congruence| |destruct Hfull; now exists i, c].
    destruct (playNoteFromBase_wraps (id c) key s) as (oct & n & Hplay & Hnote).
    destruct (keyBody_press inp key i c s Hlen Hget Hi Hid Hread Hfree) as (s1 & Hplay' & Hrun).
    assert (s1 = mkState (channels s) (base s) (settings s)
                         (trace s ++ [PlayNote (id c) oct n])) as -> by congruence.
    eexists. split; [exact Hrun|]. split_and!; try done. right; right.
    exists i, c, oct, n. cbn [channels trace]. rewrite Hid, Hidle, <- app_assoc in *.
    now split_and!.
  - destruct (negb (digitalRead inp (key + FIRST_KEY_PIN) 1) && (pressedKey c =? key))
      eqn:Hrelease.
    + (* release *)
      apply andb_true_iff in Hrelease as [Hread%negb_true_iff Hc%Z.eqb_eq].
      eexists. split; [exact (keyBody_release inp key i c s Hget Hi Hid Hpress Hread Hc)|].
      split_and!; try done. right; left.
      exists i, c. cbn [channels trace]. rewrite Hid, Hidle. now split_and!.
    + exists s. split; [now apply (keyBody_skip inp key c)|]. split_and!; try done. left.
      split; [done|]. destruct Hcases as [Hc|[(Hunbound & Hc & _)|(Hunbound & Hfull)]].
      * rewrite Hc, Z.eqb_refl, andb_true_r in Hrelease.
        apply negb_false_iff in Hrelease. split; [done|]. intros []. now exists i, c.
      * rewrite Hc, Z.eqb_refl, andb_true_r in Hpress. split; [done|]. now left.
      * split; [done|]. now right.
Qed.

(** An iteration leaves the channels held by other keys as they are. *)
Lemma keyBody_untouched (inp : Inputs) (key : Z) (s : State) (j : nat) (cj : Channel) :
  table_ok s → key ≠ NONE →
  channels s !! j = Some cj → pressedKey cj ≠ NONE → pressedKey cj ≠ key →
  ∃ s' : State, keyBody inp key s = Some (tt, s') ∧ channels s' !! j = Some cj.
Proof.
  intros Hok Hkey Hj Hheld Hother.
  destruct (keyBody_outcome inp key s Hok Hkey) as (s' & Hrun & _ & _ & Hcases).
  exists s'. split; [done|].
  destruct Hcases as [[-> _]|[(i & c & Hi & Hc & _ & -> & _)|(i & c & _ & _ & Hi & Hc & _ & _ & -> & _)]];
    [done| |].
  - rewrite list_lookup_insert_ne; [done|]. intros ->. congruence.
  - rewrite list_lookup_insert_ne; [done|]. intros ->. congruence.
Qed.

(** X2. On a table with nothing playing, when some channel holds the key:
    if the second read of the key's pin in the iteration is low, the first
    channel that holds the key is freed ([pressedKey] set to [NONE]), the
    release is reported and the driver is not called; if that read is high,
    nothing changes.  The first read plays no part. *)
Theorem keyBody_release_edge (inp : Inputs) (key : Z) (s : State) :
  table_ok s → 0 <= key < 256 → key_bound key s →
  ∃ (i : nat) (c : Channel),
    channels s !! i = Some c ∧ pressedKey c = key ∧
    (∀ (j : nat) (c' : Channel), (j < i)%nat → channels s !! j = Some c' →
                                 pressedKey c' ≠ key) ∧
    keyBody inp key s
    = Some (tt, if digitalRead inp (key + FIRST_KEY_PIN) 1
                then s
                else mkState (<[i := mkChannel (Z.of_nat i) NONE false]> (channels s))
                             (base s) (settings s) (trace s ++ [PrintReleased key])).
Proof.
  intros Hok Hkey Hbound. pose proof Hok as ([Hlen _] & Hids & Hidle).
  assert (∀ (j : nat) (c' : Channel), channels s !! j = Some c' →
            bound_idle key c' ↔ pressedKey c' = key) as Hequiv.
  { intros j c' Hj. unfold bound_idle. pose proof (Hidle j c' Hj). tauto. }
  destruct (first_or_none (bound_idle key) (channels s)) as [[c Hc]|Hno].
  2:{ destruct Hbound as (j & c' & Hj & Hc'). destruct (Hno j c' Hj). now apply (Hequiv j). }
  pose proof (getChannel_bound key s c Hlen Hc) as Hget.
  destruct Hc as (i & Hi & [Hc _] & Hmin).
  exists i, c. split_and!; try done.
  { intros j c' Hj Hc' Hk. apply (Hmin j c' Hj Hc'). now apply (Hequiv j). }
  assert (digitalRead inp (key + FIRST_KEY_PIN) 0 && (pressedKey c =? NONE) = false) as Hnopress.
  { rewrite Hc. destruct (Z.eqb_spec key NONE) as [Heq|]; [unfold NONE in Heq; lia|].
    apply andb_false_r. }
  destruct (digitalRead inp (key + FIRST_KEY_PIN) 1) eqn:Hread.
  - apply (keyBody_skip inp key c); try done. now rewrite Hread.
  - rewrite (keyBody_release inp key i c s Hget Hi (Hids i c Hi) Hnopress Hread Hc).
    now rewrite (Hids i c Hi), (Hidle i c Hi).
Qed.

Lemma held_ok : table_ok held.
Proof. apply (table_of_ok [0; NONE; NONE; NONE; NONE; NONE; NONE; NONE]); reflexivity. Qed.

Lemma keyBody_release_edge_witness :
  ∃ (i : nat) (c : Channel),
    channels held !! i = Some c ∧ pressedKey c = 0 ∧
    (∀ (j : nat) (c' : Channel), (j < i)%nat → channels held !! j = Some c' →
                                 pressedKey c' ≠ 0) ∧
    keyBody quiet 0 held
    = Some (tt, mkState (<[i := mkChannel (Z.of_nat i) NONE false]> (channels held))
                        (base held) (settings held) (trace held ++ [PrintReleased 0])).
Proof.
  apply (keyBody_release_edge quiet 0 held held_ok); [lia|].
  exists 0%nat, (mkChannel 0 0 false). split; reflexivity.
Defined.

(** X3. On a table with nothing playing, an iteration of the key loop never
    touches a channel held by another key: such a channel is the same before
    and after, whatever the pins read.  In particular no channel is stolen
    when the table is full. *)
Theorem keyBody_keeps_other_keys
    (inp : Inputs) (key : Z) (s : State) (j : nat) (cj : Channel) :
  table_ok s → 0 <= key < 256 →
  channels s !! j = Some cj → pressedKey cj ≠ NONE → pressedKey cj ≠ key →
  ∃ s' : State, keyBody inp key s = Some (tt, s') ∧ channels s' !! j = Some cj.
Proof.
  intros Hok Hkey. apply keyBody_untouched; [done|]. unfold NONE. lia.
Qed.

Lemma keyBody_keeps_other_keys_witness :
  ∃ s' : State, keyBody (press 0) 0 exhausted = Some (tt, s') ∧
                channels s' !! 0%nat = Some (mkChannel 0 10 false).
Proof.
  apply (keyBody_keeps_other_keys (press 0) 0 exhausted 0 (mkChannel 0 10 false) exhausted_ok).
  - lia.
  - reflexivity.
  - discriminate.
  - discriminate.
Defined.

(** ** The settings pass in closed form *)

Lemma accepted_cases (raw old : Z) :
  accepted raw old = old ∨
  (accepted raw old = to_byte (to_byte raw ÷ 64) ∧ accepted raw old ≠ old ∧
   to_byte raw ≠ 0).
Proof.
  unfold accepted. cbv zeta.
  destruct (Z.eqb_spec old (to_byte (to_byte raw ÷ 64))),
           (Z.eqb_spec (to_byte raw) 0); cbn; auto.
Qed.

Lemma settingBody_output (inp : Inputs) (i : nat) (old : Z) (s : State) :
  settings s !! i = Some old →
  settingBody inp i s
    = Some (tt, mkState (channels s) (base s)
                        (<[i := accepted (analogRead inp (Z.of_nat i)) old]> (settings s))
                        (trace s ++ settingPrint inp (settings s) i)).
Proof.
  intros Hold. unfold settingBody, settingPrint, accepted. cbv zeta.
  unfold bind at 1, readSetting. rewrite Hold.
  destruct (Z.eqb_spec old (to_byte (to_byte (analogRead inp (Z.of_nat i)) ÷ 64)))
    as [Heq|Hne]; cbn [negb andb].
  - destruct (decide (old = old)); [|done].
    unfold ret. rewrite app_nil_r, list_insert_id by done. now destruct s.
  - destruct (Z.eqb_spec (to_byte (analogRead inp (Z.of_nat i))) 0); cbn [negb].
    + destruct (decide (old = old)); [|done].
      unfold ret. rewrite app_nil_r, list_insert_id by done. now destruct s.
    + destruct (decide (_ = old)) as [Heq|_]; [congruence|].
      unfold bind, writeSetting, emit.
      destruct (decide (i < length (settings s))%nat) as [|Hge]; [reflexivity|].
      apply lookup_lt_Some in Hold. lia.
Qed.

(** The settings vector when the first [j] settings have been sampled. *)
Lemma sampled_step (inp : Inputs) (st : list Z) (j : nat) (old : Z) :
  st !! j = Some old →
  <[j := accepted (analogRead inp (Z.of_nat j)) old]>
    (imap (λ i v, if decide (i < j)%nat
                  then accepted (analogRead inp (Z.of_nat i)) v else v) st)
  = imap (λ i v, if decide (i < S j)%nat
                 then accepted (analogRead inp (Z.of_nat i)) v else v) st.
Proof.
  intros Hold. apply list_eq. intros k. rewrite list_lookup_imap.
  destruct (decide (k = j)) as [->|Hne].
  - rewrite list_lookup_insert_eq.
    + rewrite Hold. cbn. destruct (decide (j < S j)%nat); [done|lia].
    + rewrite length_imap. now apply lookup_lt_Some in Hold.
  - rewrite list_lookup_insert_ne by done. rewrite list_lookup_imap.
    destruct (st !! k) as [v|]; [cbn|done].
    destruct (decide (k < j)%nat), (decide (k < S j)%nat); try done; lia.
Qed.

Lemma manageSettings_closed_form (inp : Inputs) (s : State) :
  well_sized s →
  manageSettings inp s
  = Some (tt, mkState (channels s) (base s) (sampled inp (settings s))
            (trace s
             ++ flat_map (settingPrint inp (settings s))
                         (seq 0 (Z.to_nat AMOUNT_OF_SETTINGS))
             ++ flat_map (channelCalls (channels s) (sampled inp (settings s)))
                         (seq 0 (Z.to_nat AMOUNT_OF_CHANNELS)))).
Proof.
  intros [Hchs Hst].
  destruct (forLoop_inv
    (λ j t, channels t = channels s ∧ base t = base s ∧
            settings t = imap (λ i v, if decide (i < j)%nat
                                      then accepted (analogRead inp (Z.of_nat i)) v
                                      else v) (settings s) ∧
            trace t = trace s ++ flat_map (settingPrint inp (settings s)) (seq 0 j))
    (settingBody inp) (Z.to_nat AMOUNT_OF_SETTINGS) 0 s)
    as (s1 & Hrun1 & Hchs1 & Hbase1 & Hset1 & Htr1).
  { split_and!; try done; cbn.
    - apply list_eq. intros k. rewrite list_lookup_imap.
      destruct (settings s !! k); [cbn|done]. destruct (decide (k < 0)%nat); [lia|done].
    - now rewrite app_nil_r. }
  { intros j t Hj (Hc & Hb & Hs & Htr).
    assert (is_Some (settings s !! j)) as [old Hold].
    { apply lookup_lt_is_Some_2. lia. }
    assert (settings t !! j = Some old) as Hold'.
    { rewrite Hs, list_lookup_imap, Hold. cbn. destruct (decide (j < j)%nat); [lia|done]. }
    rewrite (settingBody_output inp j old t Hold').
    eexists. split; [reflexivity|]. cbn [channels base settings trace].
    split_and!; try done.
    - rewrite Hs. now apply sampled_step.
    - rewrite seq_S, flat_map_app, Htr. cbn [flat_map Nat.add].
      rewrite app_nil_r, <- app_assoc. do 2 f_equal.
      unfold settingPrint. now rewrite Hold, Hold'. }
  assert (settings s1 = sampled inp (settings s)) as Hsampled.
  { rewrite Hset1. unfold sampled. apply list_eq. intros k. rewrite !list_lookup_imap.
    destruct (settings s !! k) as [v|] eqn:Hk; [cbn|done].
    case_decide; [done|]. apply lookup_lt_Some in Hk. lia. }
  destruct (forLoop_inv
    (λ j t, channels t = channels s ∧ base t = base s ∧ settings t = settings s1 ∧
            trace t = trace s1 ++ flat_map (channelCalls (channels s) (settings s1)) (seq 0 j))
    channelBody (Z.to_nat AMOUNT_OF_CHANNELS) 0 s1)
    as (s2 & Hrun2 & Hchs2 & Hbase2 & Hset2 & Htr2).
  { split_and!; try done. cbn. now rewrite app_nil_r. }
  { intros j t Hj (Hc & Hb & Hs & Htr).
    assert (is_Some (channels s !! j)) as [c Hcj].
    { apply lookup_lt_is_Some_2. lia. }
    rewrite (channelBody_effect j c t).
    - eexists. split; [reflexivity|]. cbn [channels base settings trace].
      split_and!; try done.
      rewrite seq_S, flat_map_app, Htr, Hs. cbn [flat_map Nat.add].
      unfold channelCalls at 3. now rewrite Hcj, app_nil_r, <- app_assoc.
    - congruence.
    - rewrite Hs, Hsampled. unfold sampled. now rewrite length_imap. }
  unfold manageSettings. rewrite (bind_Some _ _ _ _ _ Hrun1), Hrun2.
  destruct s2 as [chs2 b2 st2 tr2]. cbn in *. subst.
  now rewrite Htr1, Hsampled, <- app_assoc.
Qed.

(** X12. A settings pass in closed form, on any table: the channel table
    and the base note are untouched; every setting takes its accepted value;
    a line is printed for each setting whose value changes; then the seven
    driver calls are made, with the values accepted in this same pass, for
    the channels that are not playing and only for them, in index order. *)
Theorem manageSettings_output (inp : Inputs) (s : State) :
  well_sized s →
  manageSettings inp s
  = Some (tt, mkState (channels s) (base s) (sampled inp (settings s))
            (trace s
             ++ flat_map (settingPrint inp (settings s))
                         (seq 0 (Z.to_nat AMOUNT_OF_SETTINGS))
             ++ flat_map (channelCalls (channels s) (sampled inp (settings s)))
                         (seq 0 (Z.to_nat AMOUNT_OF_CHANNELS)))).
Proof. exact (manageSettings_closed_form inp s). Qed.

Lemma manageSettings_output_witness :
  manageSettings (mkInputs (λ _, 200) (λ _ _, false))
    (mkState [mkChannel 0 NONE true; mkChannel 1 NONE false; mkChannel 2 NONE true;
              mkChannel 3 NONE true; mkChannel 4 NONE true; mkChannel 5 NONE true;
              mkChannel 6 NONE true; mkChannel 7 NONE true]
             BASE_NOTE [8; 3; 4; 4; 15] [])
  = Some (tt,
      mkState [mkChannel 0 NONE true; mkChannel 1 NONE false; mkChannel 2 NONE true;
               mkChannel 3 NONE true; mkChannel 4 NONE true; mkChannel 5 NONE true;
               mkChannel 6 NONE true; mkChannel 7 NONE true]
              BASE_NOTE [3; 3; 3; 3; 3]
              [PrintSetting 3 0; PrintSetting 3 2; PrintSetting 3 3; PrintSetting 3 4;
               SetTremolo 1 CARRIER true; SetVibrato 1 CARRIER true;
               SetMultiplier 1 CARRIER 3; SetAttack 1 CARRIER 3; SetDecay 1 CARRIER 3;
               SetSustain 1 CARRIER 3; SetRelease 1 CARRIER 3]).
Proof.
  apply (manageSettings_output (mkInputs (λ _, 200) (λ _ _, false))
           (mkState [mkChannel 0 NONE true; mkChannel 1 NONE false; mkChannel 2 NONE true;
                     mkChannel 3 NONE true; mkChannel 4 NONE true; mkChannel 5 NONE true;
                     mkChannel 6 NONE true; mkChannel 7 NONE true]
                    BASE_NOTE [8; 3; 4; 4; 15] [])).
  split; reflexivity.
Defined.

Lemma accepted_twice (raw old : Z) :
  accepted raw (accepted raw old) = accepted raw old.
Proof.
  destruct (accepted_cases raw old) as [Heq|(Hnew & _)]; [now rewrite !Heq|].
  rewrite Hnew. unfold accepted. cbv zeta. now rewrite Z.eqb_refl.
Qed.

Lemma sampled_twice (inp : Inputs) (st : list Z) :
  sampled inp (sampled inp st) = sampled inp st.
Proof.
  unfold sampled. apply list_eq. intros k. rewrite !list_lookup_imap.
  destruct (st !! k); [cbn|done]. now rewrite accepted_twice.
Qed.

Lemma no_print_after_sampling (inp : Inputs) (st : list Z) (idx : list nat) :
  flat_map (settingPrint inp (sampled inp st)) idx = [].
Proof.
  induction idx as [|i idx IH]; [done|]. cbn [flat_map]. rewrite IH, app_nil_r.
  unfold settingPrint, sampled. rewrite list_lookup_imap.
  destruct (st !! i); [cbn|done]. rewrite accepted_twice. now case_decide.
Qed.

(** X11. Two settings passes over the same readings: the second one
    changes no setting and prints nothing; it only repeats the driver
    calls. *)
Theorem manageSettings_twice (inp : Inputs) (s : State) :
  well_sized s →
  ∃ s1 : State,
    manageSettings inp s = Some (tt, s1) ∧
    manageSettings inp s1
    = Some (tt, mkState (channels s1) (base s1) (settings s1)
              (trace s1 ++ flat_map (channelCalls (channels s1) (settings s1))
                                    (seq 0 (Z.to_nat AMOUNT_OF_CHANNELS)))).
Proof.
  intros Hsize. eexists. split; [exact (manageSettings_closed_form inp s Hsize)|].
  rewrite manageSettings_closed_form.
  - cbn [channels base settings trace].
    now rewrite sampled_twice, no_print_after_sampling.
  - destruct Hsize as [Hchs Hst]. split; [done|].
    cbn [settings]. unfold sampled. now rewrite length_imap.
Qed.

Lemma manageSettings_twice_witness :
  ∃ s1 : State,
    manageSettings (mkInputs (λ _, 200) (λ _ _, false)) fresh = Some (tt, s1) ∧
    manageSettings (mkInputs (λ _, 200) (λ _ _, false)) s1
    = Some (tt, mkState (channels s1) (base s1) (settings s1)
              (trace s1 ++ flat_map (channelCalls (channels s1) (settings s1))
                                    (seq 0 (Z.to_nat AMOUNT_OF_CHANNELS)))).
Proof.
  apply (manageSettings_twice (mkInputs (λ _, 200) (λ _ _, false)) fresh).
  split; reflexivity.
Defined.

(** ** The base note, the settings and the driver calls along an execution *)

Lemma accepted_range (raw old : Z) :
  accepted raw old = old ∨ 0 <= accepted raw old <= 3.
Proof.
  destruct (accepted_cases raw old) as [Heq|(Hnew & _)]; [now left|right].
  rewrite Hnew. unfold to_byte. Z.to_euclidean_division_equations. lia.
Qed.

Lemma sampled_ok (inp : Inputs) (st : list Z) (i : nat) (v : Z) :
  (∀ (k : nat) (w : Z), st !! k = Some w → settings power_on !! k = Some w ∨ 0 <= w <= 3) →
  sampled inp st !! i = Some v →
  settings power_on !! i = Some v ∨ 0 <= v <= 3.
Proof.
  intros Hst. unfold sampled. rewrite list_lookup_imap.
  destruct (st !! i) as [old|] eqn:Hold; [cbn|done]. intros [= <-].
  destruct (accepted_range (analogRead inp (Z.of_nat i)) old) as [->|]; [|now right].
  now apply Hst.
Qed.

Lemma prints_valid (inp : Inputs) (st : list Z) (idx : list nat) :
  Forall valid_event (flat_map (settingPrint inp st) idx).
Proof.
  induction idx as [|i idx IH]; [constructor|]. cbn [flat_map].
  apply Forall_app. split; [|done]. unfold settingPrint.
  destruct (st !! i); [cbn|constructor]. case_decide; repeat constructor.
Qed.

Lemma calls_valid (chs : list Channel) (st : list Z) (idx : list nat) :
  Forall (λ i, (i < Z.to_nat AMOUNT_OF_CHANNELS)%nat) idx →
  Forall valid_event (flat_map (channelCalls chs st) idx).
Proof.
  induction 1 as [|i idx Hi _ IH]; [constructor|]. cbn [flat_map].
  apply Forall_app. split; [|done]. unfold channelCalls.
  destruct (chs !! i) as [c|]; [|constructor]. destruct (playing c); [constructor|].
  unfold AMOUNT_OF_CHANNELS in Hi.
  repeat constructor; cbn; unfold AMOUNT_OF_CHANNELS; lia.
Qed.

Lemma seq_below (n : nat) : Forall (λ i, (i < n)%nat) (seq 0 n).
Proof. apply Forall_forall. intros i Hi%elem_of_seq. lia. Qed.

(** The state that [setup] leaves, for any reading of the analog pins. *)
Lemma setup_result (boot : Inputs) :
  setup boot power_on
  = Some (tt, mkState (channels fresh) BASE_NOTE (sampled boot (settings power_on))
            ([OplInit; SerialBegin 9600]
             ++ flat_map (settingPrint boot (settings power_on))
                         (seq 0 (Z.to_nat AMOUNT_OF_SETTINGS))
             ++ flat_map (channelCalls (channels power_on) (sampled boot (settings power_on)))
                         (seq 0 (Z.to_nat AMOUNT_OF_CHANNELS))
             ++ [PinMode 2; PinMode 3; PinMode 4; PinMode 5; PinMode 6])).
Proof.
  unfold setup. unfold bind at 1. cbn [emit]. unfold bind at 1. cbn [emit].
  erewrite bind_Some by (apply manageSettings_closed_form; split; reflexivity).
  cbn [channels base settings trace].
  generalize (sampled boot (settings power_on)). intros st.
  generalize (flat_map (settingPrint boot (settings power_on))
                       (seq 0 (Z.to_nat AMOUNT_OF_SETTINGS))). intros printed.
  generalize (flat_map (channelCalls (channels power_on) st)
                       (seq 0 (Z.to_nat AMOUNT_OF_CHANNELS))). intros calls.
  cbv -[app]. rewrite <- !app_assoc. reflexivity.
Qed.

Lemma setup_driver_ok (boot : Inputs) (s : State) :
  setup boot power_on = Some (tt, s) → driver_ok s.
Proof.
  rewrite setup_result. intros Hrun%(inj Some)%(f_equal snd).
  cbn [snd] in Hrun. subst s. split_and!.
  - unfold base_ok. cbn. unfold LOWEST_NOTE, BASE_NOTE, HIGHEST_NOTE, AMOUNT_OF_KEYS. lia.
  - intros i v. cbn [settings]. apply sampled_ok. intros k w Hk. now left.
  - cbn [trace]. apply Forall_app. split; [repeat constructor|].
    apply Forall_app. split; [apply prints_valid|].
    apply Forall_app. split; [apply calls_valid, seq_below|repeat constructor].
Qed.

Lemma step_driver_ok (s s' : State) :
  invariant s → driver_ok s → step s s' → driver_ok s'.
Proof.
  intros (Hok & _ & Hkeys) (Hbase & Hset & Htrace) Hstep.
  destruct Hstep as [inp s s' Hrun|inp key s s' Hkey Hrun|s s' Hrun|s s' Hrun].
  - rewrite manageSettings_closed_form in Hrun by apply Hok.
    apply (inj Some), (f_equal snd) in Hrun. cbn [snd] in Hrun. subst s'.
    split_and!; [done| |].
    + intros i v. cbn [settings]. now apply sampled_ok.
    + cbn [trace]. apply Forall_app. split; [done|].
      apply Forall_app. split; [apply prints_valid|apply calls_valid, seq_below].
  - destruct (keyBody_outcome inp key s Hok) as (t & Ht & Hb & Hs & Hcases);
      [unfold NONE; lia|].
    assert (t = s') as -> by congruence.
    split_and!.
    + unfold base_ok. now rewrite Hb.
    + unfold settings_ok. now rewrite Hs.
    + destruct Hcases as [[-> _]|[(i & c & _ & _ & _ & _ & ->)
                                 |(i & c & oct & n & Hi & _ & _ & _ & _ & -> & Hnote & Hn & Hoct)]];
        [done| |].
      * apply Forall_app. split; [done|repeat constructor].
      * apply Forall_app. split; [done|]. constructor; [|repeat constructor].
        apply lookup_lt_Some in Hi. destruct Hok as ([Hlen _] & _). rewrite Hlen in Hi.
        unfold base_ok, LOWEST_NOTE, HIGHEST_NOTE, AMOUNT_OF_KEYS in Hbase.
        unfold AMOUNT_OF_KEYS in Hkey. unfold to_byte in Hnote.
        rewrite Z.mod_small in Hnote by lia.
        cbn. unfold AMOUNT_OF_CHANNELS, HIGHEST_NOTE in *.
        change (96 / 12) with 8. lia.
  - destruct (altBase_keeps_range (-1) s Hbase) as (b & Hb & Hrange).
    assert (s' = with_base b s) as -> by congruence. now split_and!.
  - destruct (altBase_keeps_range 1 s Hbase) as (b & Hb & Hrange).
    assert (s' = with_base b s) as -> by congruence. now split_and!.
Qed.

Lemma reachable_driver_ok (s : State) : reachable s → driver_ok s.
Proof.
  induction 1 as [boot s Hboot|s s' Hs IH Hstep].
  - now apply (setup_driver_ok boot).
  - apply (step_driver_ok s s'); [now apply reachable_invariant|done|done].
Qed.

(** X1. The sketch never indexes [channels] or [settings] out of bounds:
    [setup] followed by any number of passes of [loop], whatever the pins
    read, returns; the state it ends in is a point of an execution, the
    arrays have their sizes and the [id] of every channel is its index. *)
Theorem run_stays_in_bounds (boot : Inputs) (ticks : list Inputs) :
  ∃ s : State,
    run boot ticks power_on = Some (tt, s) ∧
    reachable s ∧ well_sized s ∧ ids_ok s.
Proof.
  destruct (run_reachable boot ticks) as (s & Hrun & Hs).
  exists s. destruct (reachable_invariant s Hs) as ((Hsize & Hids & _) & _).
  now split_and!.
Qed.

(** X6. At every point of an execution the base note is in
    [LOWEST_NOTE, HIGHEST_NOTE - AMOUNT_OF_KEYS), so the note of every key
    of the sketch, [base + key], is below [HIGHEST_NOTE]. *)
Theorem base_stays_in_range (s : State) (key : Z) :
  reachable s → 0 <= key < AMOUNT_OF_KEYS →
  LOWEST_NOTE <= base s < HIGHEST_NOTE - AMOUNT_OF_KEYS ∧
  LOWEST_NOTE <= base s + key < HIGHEST_NOTE.
Proof.
  intros Hs Hkey. destruct (reachable_driver_ok s Hs) as (Hbase & _).
  unfold base_ok in Hbase. lia.
Qed.

Lemma base_stays_in_range_witness :
  LOWEST_NOTE <= base held < HIGHEST_NOTE - AMOUNT_OF_KEYS ∧
  LOWEST_NOTE <= base held + 2 < HIGHEST_NOTE.
Proof.
  apply (base_stays_in_range held 2 held_reachable).
  unfold AMOUNT_OF_KEYS. lia.
Defined.

(** X7. Every call to the driver in an execution has its arguments in
    range: the channel is 0..7 in every [set...] call and in every
    [playNote], and [playNote] gets an octave in 0..7 and a note in
    0..11. *)
Theorem driver_calls_in_range (s : State) (e : Event) :
  reachable s → e ∈ trace s → valid_event e.
Proof.
  intros Hs He. destruct (reachable_driver_ok s Hs) as (_ & _ & Htrace).
  rewrite Forall_forall in Htrace. now apply Htrace.
Qed.

Lemma driver_calls_in_range_witness :
  reachable held ∧ PlayNote 0 3 0 ∈ trace held ∧ valid_event (PlayNote 0 3 0).
Proof.
  assert (PlayNote 0 3 0 ∈ trace held) as Hin.
  { apply list_elem_of_lookup. exists 63%nat. reflexivity. }
  split; [exact held_reachable|]. split; [exact Hin|].
  exact (driver_calls_in_range held (PlayNote 0 3 0) held_reachable Hin).
Defined.

(** X10. At every point of an execution each setting has the value of its
    initialiser or a value in 0..3: a value that the settings pass stores is
    a byte divided by 64. *)
Theorem settings_stay_small (s : State) (i : nat) (v : Z) :
  reachable s → settings s !! i = Some v →
  settings power_on !! i = Some v ∨ 0 <= v <= 3.
Proof.
  intros Hs Hv. destruct (reachable_driver_ok s Hs) as (_ & Hset & _).
  now apply (Hset i).
Qed.

Lemma settings_stay_small_witness :
  reachable held ∧ settings held !! 1%nat = Some 10 ∧
  (settings power_on !! 1%nat = Some 10 ∨ 0 <= 10 <= 3).
Proof.
  split; [exact held_reachable|]. split; [reflexivity|].
  apply (settings_stay_small held 1 10 held_reachable). reflexivity.
Defined.

(** ** A whole pass of the key loop *)

(** The key loop from a point of an execution: it returns, and carries an
    invariant indexed by the key through its three iterations; the base
    note and the settings are as before. *)
Lemma keyLoop_reachable (P : nat → State → Prop) (inp : Inputs) (s : State) :
  reachable s → P 0%nat s →
  (∀ (j : nat) (t t' : State),
     (j < Z.to_nat AMOUNT_OF_KEYS)%nat → reachable t → P j t →
     keyBody inp (Z.of_nat j) t = Some (tt, t') → P (S j) t') →
  ∃ s2 : State,
    forLoop 0 (Z.to_nat AMOUNT_OF_KEYS) (λ key, keyBody inp (Z.of_nat key)) s
      = Some (tt, s2) ∧
    reachable s2 ∧ P (Z.to_nat AMOUNT_OF_KEYS) s2 ∧
    base s2 = base s ∧ settings s2 = settings s.
Proof.
  intros Hs HP Hstep.
  destruct (forLoop_inv
    (λ j t, reachable t ∧ P j t ∧ base t = base s ∧ settings t = settings s)
    (λ key, keyBody inp (Z.of_nat key)) (Z.to_nat AMOUNT_OF_KEYS) 0 s)
    as (s2 & Hrun & Hs2 & HP2 & Hb2 & Hst2); [done| |now exists s2].
  intros j t Hj (Ht & HPt & Hb & Hst).
  destruct (reachable_invariant t Ht) as (Hok & _).
  destruct (keyBody_outcome inp (Z.of_nat j) t Hok) as (t' & Hrun & Hb' & Hst' & _);
    [unfold NONE; lia|].
  exists t'. split; [done|]. split_and!; try congruence.
  - apply (reach_step t t' Ht). apply (step_key inp (Z.of_nat j)); [lia|done].
  - apply (Hstep j t t'); [lia|done..].
Qed.

(** The end of [manageKeys]: the two transposition pins. *)
Lemma transposition (inp : Inputs) (s : State) :
  base_ok s →
  ((if digitalRead inp MOVE_DOWN_1_PIN 0 then altBase (-1) else ret tt) ;;
   (if digitalRead inp MOVE_UP_1_PIN 0 then altBase 1 else ret tt)) s
  = Some (tt, with_base (transposed inp (base s)) s).
Proof.
  unfold base_ok, transposed, LOWEST_NOTE, HIGHEST_NOTE, AMOUNT_OF_KEYS. intros Hb.
  assert (∀ alt t, 0 <= base t + alt < 96 - 3 →
            altBase alt t = Some (tt, with_base (base t + alt) t)) as Hin.
  { intros alt t Ht. now apply altBase_in_range. }
  assert (∀ alt t, ¬ (0 <= base t + alt < 96 - 3) → altBase alt t = Some (tt, t)) as Hout.
  { intros alt t Ht. now apply altBase_out_of_range. }
  destruct (digitalRead inp MOVE_DOWN_1_PIN 0), (digitalRead inp MOVE_UP_1_PIN 0).
  - destruct (Z.eqb_spec (base s) 0) as [Hzero|Hpos].
    + rewrite (bind_Some _ _ _ _ _ (Hout (-1) s ltac:(lia))).
      now rewrite (Hin 1 s) by lia.
    + rewrite (bind_Some _ _ _ _ _ (Hin (-1) s ltac:(lia))).
      rewrite (Hin 1 (with_base _ s)) by (cbn; lia).
      unfold with_base. cbn. do 3 f_equal. lia.
  - destruct (decide (0 <= base s + -1 < 96 - 3)) as [Hok|Hno].
    + rewrite (bind_Some _ _ _ _ _ (Hin (-1) s Hok)). unfold ret. do 3 f_equal. lia.
    + rewrite (bind_Some _ _ _ _ _ (Hout (-1) s Hno)). unfold ret.
      rewrite <- (with_base_same s) at 1. do 3 f_equal. lia.
  - unfold bind at 1, ret at 1.
    destruct (decide (0 <= base s + 1 < 96 - 3)) as [Hok|Hno].
    + rewrite (Hin 1 s Hok). do 3 f_equal. lia.
    + rewrite (Hout 1 s Hno). rewrite <- (with_base_same s) at 1. do 3 f_equal. lia.
  - unfold bind, ret. now rewrite with_base_same.
Qed.

(** A pass of [manageKeys] from a point of an execution. *)
Lemma manageKeys_reachable (P : nat → State → Prop) (inp : Inputs) (s : State) :
  reachable s → P 0%nat s →
  (∀ (j : nat) (t t' : State),
     (j < Z.to_nat AMOUNT_OF_KEYS)%nat → reachable t → P j t →
     keyBody inp (Z.of_nat j) t = Some (tt, t') → P (S j) t') →
  ∃ s2 : State,
    manageKeys inp s = Some (tt, with_base (transposed inp (base s)) s2) ∧
    reachable s2 ∧ P (Z.to_nat AMOUNT_OF_KEYS) s2 ∧ settings s2 = settings s.
Proof.
  intros Hs HP Hstep.
  destruct (keyLoop_reachable P inp s Hs HP Hstep) as (s2 & Hrun & Hs2 & HP2 & Hb & Hst).
  exists s2. split_and!; try done.
  unfold manageKeys. rewrite (bind_Some _ _ _ _ _ Hrun), <- Hb.
  apply transposition. now destruct (reachable_driver_ok s2 Hs2).
Qed.

(** X9. A pass of [manageKeys] at a point of an execution moves the base
    note by the two transposition pins only, down first and then up: down
    alone lowers it by one but not below [LOWEST_NOTE]; up alone raises it
    by one but not above [HIGHEST_NOTE - AMOUNT_OF_KEYS - 1]; both together
    leave it as it was, except at [LOWEST_NOTE], where the step down is
    refused and the step up is taken.  The settings are untouched. *)
Theorem manageKeys_moves_base (inp : Inputs) (s : State) :
  reachable s →
  ∃ s' : State,
    manageKeys inp s = Some (tt, s') ∧
    base s' = transposed inp (base s) ∧ settings s' = settings s.
Proof.
  intros Hs.
  destruct (manageKeys_reachable (λ _ _, True) inp s Hs I) as (s2 & Hrun & _ & _ & Hst);
    [done|].
  eexists. split; [exact Hrun|]. now split.
Qed.

Lemma manageKeys_moves_base_witness :
  ∃ s' : State,
    manageKeys (mkInputs (λ _, 0) (λ _ _, true)) held = Some (tt, s') ∧
    base s' = 36 ∧ settings s' = settings held.
Proof.
  exact (manageKeys_moves_base (mkInputs (λ _, 0) (λ _ _, true)) held held_reachable).
Defined.

Lemma key_bound_or_not (key : Z) (s : State) :
  table_ok s → key_bound key s ∨ ¬ key_bound key s.
Proof.
  intros (_ & _ & Hidle).
  destruct (first_or_none (bound_idle key) (channels s)) as [(c & i & Hi & [Hc _] & _)|Hno].
  - left. now exists i, c.
  - right. intros (i & c & Hi & Hc). apply (Hno i c Hi). split; [done|]. now apply (Hidle i).
Qed.

(** X5. A key of the sketch whose pin reads high throughout a pass of
    [manageKeys] holds a channel at the end of the pass, from any point of
    an execution: it keeps the channel it had, or takes a free one (there is
    always one), and the iterations for the other keys leave it alone. *)
Theorem manageKeys_binds_pressed (inp : Inputs) (k : Z) (s : State) :
  reachable s → 0 <= k < AMOUNT_OF_KEYS →
  digitalRead inp (k + FIRST_KEY_PIN) 0 = true →
  digitalRead inp (k + FIRST_KEY_PIN) 1 = true →
  ∃ s' : State, manageKeys inp s = Some (tt, s') ∧ key_bound k s'.
Proof.
  intros Hs Hk Hread0 Hread1.
  destruct (manageKeys_reachable (λ j t, (Z.to_nat k < j)%nat → key_bound k t) inp s Hs)
    as (s2 & Hrun & _ & Hbound & _); [lia| |].
  - intros j t t' Hj Ht HP Hrun Hlt.
    destruct (reachable_invariant t Ht) as (Hok & _).
    destruct (decide (j = Z.to_nat k)) as [->|Hne].
    + rewrite Z2Nat.id in Hrun by lia.
      destruct (keyBody_outcome inp k t Hok) as (t'' & Hrun' & _ & _ & Hcases);
        [unfold NONE; lia|].
      assert (t'' = t') as -> by congruence.
      destruct Hcases as [(-> & Hheld & Hfree)|[(i & c & _ & _ & Hlow & _)
                         |(i & c & oct & n & Hi & _ & _ & _ & Hchs & _)]].
      * destruct (key_bound_or_not k t Hok) as [|Hunbound]; [done|].
        destruct (Hfree Hunbound) as [Hlow|Hfull]; [congruence|].
        destruct Hfull. now apply reachable_free_channel.
      * congruence.
      * exists i, (mkChannel (Z.of_nat i) k false). rewrite Hchs. split; [|done].
        apply list_lookup_insert_eq. now apply lookup_lt_Some in Hi.
    + destruct HP as (a & ca & Ha & Hca); [lia|].
      destruct (keyBody_untouched inp (Z.of_nat j) t a ca Hok) as (t'' & Hrun' & Ha');
        [unfold NONE; lia|done|unfold NONE; lia|lia|].
      assert (t'' = t') as -> by congruence. now exists a, ca.
  - eexists. split; [exact Hrun|]. apply Hbound. unfold AMOUNT_OF_KEYS in *. lia.
Qed.

Lemma manageKeys_binds_pressed_witness :
  ∃ s' : State, manageKeys (press 1) held = Some (tt, s') ∧ key_bound 1 s'.
Proof.
  apply (manageKeys_binds_pressed (press 1) 1 held held_reachable).
  - unfold AMOUNT_OF_KEYS. lia.
  - reflexivity.
  - reflexivity.
Defined.

(** X4. A pass of [manageKeys] in which the pins of all the keys read low
    frees every channel, from any point of an execution. *)
Theorem manageKeys_releases_all (inp : Inputs) (s : State) :
  reachable s →
  (∀ (key : Z) (n : nat), 0 <= key < AMOUNT_OF_KEYS →
                          digitalRead inp (key + FIRST_KEY_PIN) n = false) →
  ∃ s' : State,
    manageKeys inp s = Some (tt, s') ∧
    ∀ (i : nat) (c : Channel), channels s' !! i = Some c → pressedKey c = NONE.
Proof.
  intros Hs Hlow.
  destruct (manageKeys_reachable
              (λ j t, ∀ i c, channels t !! i = Some c →
                             pressedKey c = NONE ∨ Z.of_nat j <= pressedKey c) inp s Hs)
    as (s2 & Hrun & Hs2 & Hfree & _).
  - intros i c Hi. destruct (reachable_invariant s Hs) as (_ & _ & Hkeys).
    destruct (Hkeys i c Hi); [now left|right; lia].
  - intros j t t' Hj Ht HP Hrun.
    destruct (reachable_invariant t Ht) as (Hok & Huniq & _).
    assert (0 <= Z.of_nat j < AMOUNT_OF_KEYS) as Hkey by lia.
    destruct (keyBody_outcome inp (Z.of_nat j) t Hok) as (t'' & Hrun' & _ & _ & Hcases);
      [unfold NONE; lia|].
    assert (t'' = t') as -> by congruence.
    destruct Hcases as [(-> & Hheld & _)|[(i0 & c0 & Hi0 & Hc0 & _ & Hchs & _)
                       |(i0 & c0 & oct & n & _ & _ & _ & Hhigh & _)]].
    + intros i c Hi. destruct (HP i c Hi) as [|Hge]; [now left|right].
      assert (pressedKey c ≠ Z.of_nat j); [|lia].
      intros Hc. assert (key_bound (Z.of_nat j) t) as Hb by now exists i, c.
      apply Hheld in Hb. rewrite (Hlow _ 1%nat Hkey) in Hb. discriminate.
    + intros i c. rewrite Hchs. destruct (decide (i = i0)) as [->|Hne].
      * rewrite list_lookup_insert_eq by now apply lookup_lt_Some in Hi0.
        intros [= <-]. now left.
      * rewrite list_lookup_insert_ne by done. intros Hi.
        destruct (HP i c Hi) as [|Hge]; [now left|right].
        assert (pressedKey c ≠ Z.of_nat j); [|lia].
        intros Hc. apply Hne.
        apply (Huniq (Z.of_nat j) i i0 c c0); [unfold NONE; lia|done..].
    + rewrite (Hlow _ 0%nat Hkey) in Hhigh. discriminate.
  - eexists. split; [exact Hrun|]. cbn [with_base channels]. intros i c Hi.
    destruct (reachable_invariant s2 Hs2) as (_ & _ & Hkeys).
    destruct (Hfree i c Hi) as [|Hge]; [done|].
    destruct (Hkeys i c Hi) as [|Hlt]; [done|]. unfold AMOUNT_OF_KEYS in *. lia.
Qed.

Lemma manageKeys_releases_all_witness :
  ∃ s' : State,
    manageKeys quiet held = Some (tt, s') ∧
    ∀ (i : nat) (c : Channel), channels s' !! i = Some c → pressedKey c = NONE.
Proof.
  apply (manageKeys_releases_all quiet held held_reachable).
  intros key n _. reflexivity.
Defined.

(** X13. On a table with nothing playing, when no channel holds the key
    and some channel is free, the iteration is decided by the first read of
    the key's pin alone: high, the first free channel is bound to the key
    after [playNoteFromBase] is called for it; low, nothing changes.  The
    second read plays no part. *)
Theorem keyBody_press_first_read (inp : Inputs) (key : Z) (s : State) :
  table_ok s → 0 <= key < 256 → ¬ key_bound key s → key_bound NONE s →
  ∃ (i : nat) (c : Channel) (s1 : State),
    channels s !! i = Some c ∧ pressedKey c = NONE ∧
    (∀ (j : nat) (c' : Channel), (j < i)%nat → channels s !! j = Some c' →
                                 pressedKey c' ≠ NONE) ∧
    playNoteFromBase (Z.of_nat i) key s = Some (tt, s1) ∧
    keyBody inp key s
    = Some (tt, if digitalRead inp (key + FIRST_KEY_PIN) 0
                then mkState (<[i := mkChannel (Z.of_nat i) key false]> (channels s))
                             (base s) (settings s) (trace s1 ++ [PrintPressed key])
                else s).
Proof.
  intros Hok Hkey Hunbound Hfree. pose proof Hok as ([Hlen _] & _).
  destruct (getChannel_idle key s Hok) as (i & c & Hget & Hi & Hid & Hidle & Hcases).
  destruct Hcases as [Hc|[(_ & Hc & Hmin)|(_ & Hfull)]];
    [destruct Hunbound; now exists i, c| |done].
  destruct (playNoteFromBase_wraps (Z.of_nat i) key s) as (oct & n & Hplay & _).
  exists i, c. eexists. do 3 (split; [done|]). split; [exact Hplay|].
  destruct (digitalRead inp (key + FIRST_KEY_PIN) 0) eqn:Hread.
  - destruct (keyBody_press inp key i c s Hlen Hget Hi Hid Hread Hc) as (s1 & Hplay' & ->).
    rewrite Hid in Hplay'. rewrite Hplay in Hplay'. injection Hplay' as <-.
    now rewrite Hid, Hidle.
  - apply (keyBody_skip inp key c); [done|now rewrite Hread|].
    rewrite Hc. destruct (Z.eqb_spec NONE key) as [Heq|]; [unfold NONE in Heq; lia|].
    apply andb_false_r.
Qed.

Lemma keyBody_press_first_read_witness :
  ∃ (i : nat) (c : Channel) (s1 : State),
    channels held !! i = Some c ∧ pressedKey c = NONE ∧
    (∀ (j : nat) (c' : Channel), (j < i)%nat → channels held !! j = Some c' →
                                 pressedKey c' ≠ NONE) ∧
    playNoteFromBase (Z.of_nat i) 2 held = Some (tt, s1) ∧
    keyBody (mkInputs (λ _, 0) (λ _ n, match n with O => true | S _ => false end)) 2 held
    = Some (tt, mkState (<[i := mkChannel (Z.of_nat i) 2 false]> (channels held))
                        (base held) (settings held) (trace s1 ++ [PrintPressed 2])).
Proof.
  refine (keyBody_press_first_read
            (mkInputs (λ _, 0) (λ _ n, match n with O => true | S _ => false end))
            2 held held_ok _ _ _).
  - lia.
  - intros (i & c & Hi & Hc).
    apply (table_of_lookup [0; NONE; NONE; NONE; NONE; NONE; NONE; NONE]) in Hi
      as (k & Hi & ->).
    cbn in Hc. subst k.
    do 8 (destruct i as [|i]; [injection Hi; discriminate|]). discriminate Hi.
  - exists 1%nat, (mkChannel 1 NONE false). split; reflexivity.
Defined.

(** X14. [setup] in closed form, whatever the analog pins read: it returns;
    the settings are sampled once; the settings pass runs before the table
    is initialised, on the zero-initialised table, so it makes the driver
    calls for all eight channels; the table is then the eight free channels
    with their ids in order, and the base note is [BASE_NOTE]. *)
Theorem setup_closed_form (boot : Inputs) :
  setup boot power_on
  = Some (tt, mkState (table_of [NONE; NONE; NONE; NONE; NONE; NONE; NONE; NONE])
                      BASE_NOTE (sampled boot [8; 10; 4; 4; 15])
            ([OplInit; SerialBegin 9600]
             ++ flat_map (settingPrint boot [8; 10; 4; 4; 15])
                         (seq 0 (Z.to_nat AMOUNT_OF_SETTINGS))
             ++ flat_map (settingCalls (sampled boot [8; 10; 4; 4; 15]))
                         (seq 0 (Z.to_nat AMOUNT_OF_CHANNELS))
             ++ [PinMode 2; PinMode 3; PinMode 4; PinMode 5; PinMode 6])).
Proof. exact (setup_result boot). Qed.
